(** * Schema explorer: graph construction, FK index audit and interaction state

    A shallow embedding of the algorithmic core of [app.js] (the schema
    explorer of the AA_DB_Schema repository): the typed lookups built from
    [window.SCHEMA.objects], the FK index audit, the grid layout, the edge
    list, the edge-visibility and isolate-mode passes over the diagram's SVG
    elements, and the selection handlers.

    JavaScript data is modelled as the code uses it: object keys, names and
    types are strings; an optional property ([columns], [indexes], [fk]) is an
    [option]; [null] is [None]; a [Map] is a [gmap], a [Set] a [gset]; an
    array is a [list], and [push] appends at the end. *)

From Stdlib Require QArith.
From Stdlib Require Import Ascii.
From stdpp Require Import gmap strings list fin_maps.

Abbreviation Q := QArith_base.Q.

Open Scope string_scope.
Open Scope list_scope.

(** ** Raw JavaScript values: the startup guard sees [window.SCHEMA] before
    anything is known about its shape. *)
Module Js.

(** Numbers are restricted to integers: the guard only asks whether a
    number is zero. *)
#[warnings="-register-all"]
Inductive value : Type :=
| Undefined
| Null
| Bool (b : bool)
| Num (z : Z)
| Str (s : string)
| Arr (elems : list value)
| Obj (fields : list (string * value)).

(** [ToBoolean]: what [!v] and [v || w] test. *)
Definition truthy (v : value) : bool :=
  match v with
  | Undefined | Null => false
  | Bool b => b
  | Num z => negb (z =? 0)%Z
  | Str s => negb (String.eqb s "")
  | Arr _ | Obj _ => true
  end.

(** [Array.isArray(v)]. *)
Definition isArray (v : value) : bool :=
  match v with
  | Arr _ => true
  | _ => false
  end.

(** The elements of an array. *)
Definition elements (v : value) : list value :=
  match v with
  | Arr elems => elems
  | _ => []
  end.

(** [undefined] or [null]: the values on which a property access throws a
    [TypeError]. *)
Definition nullish (v : value) : bool :=
  match v with
  | Undefined | Null => true
  | _ => false
  end.

(** A later binding of a property name in an object literal overrides an
    earlier one. *)
Definition get_field (p : string) (fields : list (string * value)) : value :=
  foldl (λ acc kv, if String.eqb (fst kv) p then snd kv else acc) Undefined fields.

(** [v.p] for a [v] that is neither [undefined] nor [null] (on those the
    access throws; the guard never gets there, see [startup]).  Only the
    properties the dataset carries are looked at: a primitive or an array
    has no property of such a name. *)
Definition get (v : value) (p : string) : value :=
  match v with
  | Obj fields => get_field p fields
  | _ => Undefined
  end.

End Js.

(** ** Startup: the guard and the two lookups (the first statements of the
    IIFE) *)

(** How the head of the script ends: the guard logs the configuration error
    and returns; or an entry is [null] or [undefined] and [o.key], in
    [new Map(objects.map(o => [o.key, o]))], throws a [TypeError] that nothing
    catches, so that the script stops there; or [byKey] and [byType] are built
    from the entries and the script goes on to the audit, the layout, the edge
    list and [init()], which the typed model below describes. *)
Inductive StartupOutcome : Type :=
| Refused (console_error : string)
| Throws
| LookupsBuilt (objects : list Js.value).

(** [if (!window.SCHEMA || !Array.isArray(window.SCHEMA.objects))
      { console.error(...); return; }
     const objects = SCHEMA.objects;
     const byKey = new Map(objects.map(o => [o.key, o]));
     for (const o of objects) { ...o.type... }]
    Reading [o.key] and [o.type] throws on [null] and [undefined] and on
    nothing else. *)
Definition startup (window_SCHEMA : Js.value) : StartupOutcome :=
  if negb (Js.truthy window_SCHEMA)
     || negb (Js.isArray (Js.get window_SCHEMA "objects"))
  then Refused "SCHEMA not found. Make sure data.js loads before app.js."
  else
    let objects := Js.elements (Js.get window_SCHEMA "objects") in
    if existsb Js.nullish objects then Throws else LookupsBuilt objects.

(** An entry of the dataset lacks [name] or [type]. *)
Definition entry_malformed (o : Js.value) : bool :=
  match o with
  | Js.Obj fields =>
      negb (Js.truthy (Js.get_field "name" fields))
      || negb (Js.truthy (Js.get_field "type" fields))
  | _ => true
  end.

(** ** The schema dataset, typed *)

Record ForeignKey : Type := {
  fk_table : string;
  fk_column : string
}.

Record Column : Type := {
  c_name : string;
  c_fk : option ForeignKey
}.

Record Index : Type := {
  i_name : string;
  i_columns : option (list string)
}.

Record SchemaObject : Type := {
  o_key : string;
  o_type : string;
  o_name : string;
  o_columns : option (list Column);
  o_indexes : option (list Index)
}.

Record AuditFinding : Type := {
  f_table : string;
  f_column : string;
  f_referencedTable : string;
  f_suggestion : string
}.

Record Edge : Type := {
  e_from : string;
  e_to : string;
  e_label : string
}.

(** ** Schema model: [byKey] and [byType] *)

(** [new Map(objects.map(o => [o.key, o]))]: a later entry with the same
    key replaces an earlier one. *)
Definition byKey (objects : list SchemaObject) : gmap string SchemaObject :=
  foldl (λ m o, <[o_key o := o]> m) ∅ objects.

(** [if (!byType.has(o.type)) byType.set(o.type, []);
     byType.get(o.type).push(o);] *)
Definition byType_step (m : gmap string (list SchemaObject)) (o : SchemaObject)
  : gmap string (list SchemaObject) :=
  let m1 := match m !! o_type o with
            | None => <[o_type o := []]> m
            | Some _ => m
            end in
  alter (λ l, l ++ [o]) (o_type o) m1.

Definition byType (objects : list SchemaObject) : gmap string (list SchemaObject) :=
  foldl byType_step ∅ objects.

(** [byType.get(t) || []] (an array, even an empty one, is truthy). *)
Definition byType_get_or_empty (objects : list SchemaObject) (t : string)
  : list SchemaObject :=
  default [] (byType objects !! t).

(** [const tables = objects.filter(o => o.type === "table")] *)
Definition tables (objects : list SchemaObject) : list SchemaObject :=
  filter (λ o, o_type o = "table") objects.

(** ** FK index audit *)

(** [(tbl.indexes || []).some(idx => { const idxCols = idx.columns || [];
      return idxCols.length > 0 && idxCols[0] === fkColName; })] *)
Definition hasIndex (tbl : SchemaObject) (fkColName : string) : bool :=
  existsb
    (λ idx, let idxCols := default [] (i_columns idx) in
            bool_decide (0 < length idxCols)
            && bool_decide (idxCols !! 0 = Some fkColName))
    (default [] (o_indexes tbl)).

Definition suggestion (tbl_name col_name : string) : string :=
  "CREATE INDEX idx_" +:+ tbl_name +:+ "_" +:+ col_name
    +:+ " ON " +:+ tbl_name +:+ "(" +:+ col_name +:+ ");".

(** One iteration of the inner loop: [issues] is [fkIndexIssues] before the
    iteration, the result is [fkIndexIssues] after it. *)
Definition audit_column (tbl : SchemaObject) (issues : list AuditFinding)
    (col : Column) : list AuditFinding :=
  match c_fk col with
  | None => issues
  | Some fk =>
      if hasIndex tbl (c_name col) then issues
      else issues ++ [ {| f_table := o_name tbl;
                          f_column := c_name col;
                          f_referencedTable := fk_table fk;
                          f_suggestion := suggestion (o_name tbl) (c_name col) |} ]
  end.

(** One iteration of the outer loop. *)
Definition audit_table (issues : list AuditFinding) (tbl : SchemaObject)
  : list AuditFinding :=
  match o_columns tbl with
  | None => issues
  | Some cols => foldl (audit_column tbl) issues cols
  end.

Definition auditFkIndexes (objects : list SchemaObject) : list AuditFinding :=
  foldl audit_table [] (byType_get_or_empty objects "table").

(** ** Diagram layout (simple grid, tables only) *)

Definition NODE_W : Z := 200.
Definition NODE_PAD : Z := 40.
Definition COL_COUNT : Z := 6.
Definition ROW_HEIGHT : Z := 160.

Record Pos : Type := { x : Z; y : Z }.

(** The object literal of the [forEach] callback at index [i]:
    [col = i % COL_COUNT], [row = Math.floor(i / COL_COUNT)]. *)
Definition grid_pos (i : nat) : Pos :=
  let col := (Z.of_nat i `mod` COL_COUNT)%Z in
  let row := (Z.of_nat i `div` COL_COUNT)%Z in
  {| x := col * (NODE_W + NODE_PAD) + 50;
     y := row * ROW_HEIGHT + 50 |}%Z.

(** [tables.forEach((t, i) => { nodePos.set(t.key, {...}); })], started on
    the map [m] at index [i]. *)
Fixpoint layout_from (i : nat) (m : gmap string Pos) (ts : list SchemaObject)
  : gmap string Pos :=
  match ts with
  | [] => m
  | t :: ts' => layout_from (S i) (<[o_key t := grid_pos i]> m) ts'
  end.

Definition nodePos (objects : list SchemaObject) : gmap string Pos :=
  layout_from 0 ∅ (tables objects).

(** ** Edge list *)

(** [objects.find(o => o.type === "table" && o.name === tableName)] *)
Definition find_table (objects : list SchemaObject) (tableName : string)
  : option SchemaObject :=
  List.find (λ o, bool_decide (o_type o = "table")
                  && bool_decide (o_name o = tableName)) objects.

(** One iteration of the inner loop over [t.columns]. *)
Definition edges_column (objects : list SchemaObject) (t : SchemaObject)
    (es : list Edge) (c : Column) : list Edge :=
  match c_fk c with
  | None => es
  | Some fk =>
      match find_table objects (fk_table fk) with
      | Some target =>
          es ++ [ {| e_from := o_key t; e_to := o_key target; e_label := c_name c |} ]
      | None => es
      end
  end.

(** One iteration of the outer loop over [tables]. *)
Definition edges_table (objects : list SchemaObject) (es : list Edge)
    (t : SchemaObject) : list Edge :=
  match o_columns t with
  | None => es
  | Some cols => foldl (edges_column objects t) es cols
  end.

Definition edges (objects : list SchemaObject) : list Edge :=
  foldl (edges_table objects) [] (tables objects).

(** ** Incoming references (the "Referenced By" section) *)

Definition incoming_column (tableName : string) (tbl : SchemaObject)
    (refs : list (string * string)) (col : Column) : list (string * string) :=
  match c_fk col with
  | Some fk =>
      if bool_decide (fk_table fk = tableName)
      then refs ++ [ (o_name tbl, c_name col) ]
      else refs
  | None => refs
  end.

Definition incoming_table (tableName : string) (refs : list (string * string))
    (tbl : SchemaObject) : list (string * string) :=
  match o_columns tbl with
  | None => refs
  | Some cols => foldl (incoming_column tableName tbl) refs cols
  end.

(** The result pairs are [{table, column}] objects. *)
Definition findIncomingReferences (objects : list SchemaObject)
    (tableName : string) : list (string * string) :=
  foldl (incoming_table tableName) [] (byType_get_or_empty objects "table").

(** ** Neighbours *)

(** [neighbors.add(key); for (const e of edges) { if (e.from === key)
    neighbors.add(e.to); if (e.to === key) neighbors.add(e.from); }] *)
Definition neighbor_step (key : string) (neighbors : gset string) (e : Edge)
  : gset string :=
  let n1 := if bool_decide (e_from e = key) then neighbors ∪ {[ e_to e ]}
            else neighbors in
  if bool_decide (e_to e = key) then n1 ∪ {[ e_from e ]} else n1.

Definition getNeighborKeys (es : list Edge) (key : string) : gset string :=
  foldl (neighbor_step key) {[ key ]} es.

(** ** Interaction state *)

(** The [state] object.  [selected] and [hovered] hold an object key or
    [null]; [zoom] and [pan] are numbers that the operations below only carry
    along. *)
Record State : Type := {
  st_view : string;
  st_filter : string;
  st_typeFilter : string;
  st_domainFilter : option string;
  st_selected : option string;
  st_hovered : option string;
  st_showEdges : string;
  st_isolateMode : bool;
  st_zoom : Q;
  st_pan : Q * Q
}.

Definition initial_state : State :=
  {| st_view := "diagram"; st_filter := ""; st_typeFilter := "all";
     st_domainFilter := None; st_selected := None; st_hovered := None;
     st_showEdges := "focus"; st_isolateMode := false;
     st_zoom := QArith_base.Qmake 1 1;
     st_pan := (QArith_base.Qmake 0 1, QArith_base.Qmake 0 1) |}.

Definition set_selected (v : option string) (st : State) : State :=
  {| st_view := st_view st; st_filter := st_filter st;
     st_typeFilter := st_typeFilter st; st_domainFilter := st_domainFilter st;
     st_selected := v; st_hovered := st_hovered st;
     st_showEdges := st_showEdges st; st_isolateMode := st_isolateMode st;
     st_zoom := st_zoom st; st_pan := st_pan st |}.

Definition set_hovered (v : option string) (st : State) : State :=
  {| st_view := st_view st; st_filter := st_filter st;
     st_typeFilter := st_typeFilter st; st_domainFilter := st_domainFilter st;
     st_selected := st_selected st; st_hovered := v;
     st_showEdges := st_showEdges st; st_isolateMode := st_isolateMode st;
     st_zoom := st_zoom st; st_pan := st_pan st |}.

Definition set_showEdges (v : string) (st : State) : State :=
  {| st_view := st_view st; st_filter := st_filter st;
     st_typeFilter := st_typeFilter st; st_domainFilter := st_domainFilter st;
     st_selected := st_selected st; st_hovered := st_hovered st;
     st_showEdges := v; st_isolateMode := st_isolateMode st;
     st_zoom := st_zoom st; st_pan := st_pan st |}.

Definition set_isolateMode (v : bool) (st : State) : State :=
  {| st_view := st_view st; st_filter := st_filter st;
     st_typeFilter := st_typeFilter st; st_domainFilter := st_domainFilter st;
     st_selected := st_selected st; st_hovered := st_hovered st;
     st_showEdges := st_showEdges st; st_isolateMode := v;
     st_zoom := st_zoom st; st_pan := st_pan st |}.

Definition set_view (v : string) (st : State) : State :=
  {| st_view := v; st_filter := st_filter st;
     st_typeFilter := st_typeFilter st; st_domainFilter := st_domainFilter st;
     st_selected := st_selected st; st_hovered := st_hovered st;
     st_showEdges := st_showEdges st; st_isolateMode := st_isolateMode st;
     st_zoom := st_zoom st; st_pan := st_pan st |}.

(** [ToBoolean] of a value that is a string or [null]: what [!state.selected]
    and [state.selected || state.hovered] test.  The empty string is falsy. *)
Definition truthy_key (v : option string) : bool :=
  match v with
  | None => false
  | Some k => negb (String.eqb k "")
  end.

(** ** The diagram's SVG elements *)

(** A [g.diagram-node]: [dataset.key], whether its [rect] carries the class
    [selected], whether the group carries [is-dim]. *)
Record NodeElem : Type := {
  n_key : string;
  n_selected : bool;
  n_dim : bool
}.

(** A [path.edge-line]: [dataset.from], [dataset.to], the classes
    [is-highlight] and [is-dim], the [marker-end] attribute and
    [style.opacity]. *)
Record EdgeLine : Type := {
  l_from : string;
  l_to : string;
  l_highlight : bool;
  l_marker_end : string;
  l_opacity : string;
  l_dim : bool
}.

(** What [$$("#schemaSvg .diagram-node")] and [$$("#schemaSvg .edge-line")]
    return, in document order. *)
Record Dom : Type := {
  dom_nodes : list NodeElem;
  dom_edges : list EdgeLine
}.

(** *** Edge visibility and highlighting *)

(** [state.selected || state.hovered] *)
Definition activeKey (st : State) : option string :=
  if truthy_key (st_selected st) then st_selected st else st_hovered st.

(** [activeKey && (from === activeKey || to === activeKey)], as the branch
    condition it is used for. *)
Definition isHighlighted (st : State) (from to : string) : bool :=
  truthy_key (activeKey st)
  && (bool_decide (Some from = activeKey st) || bool_decide (Some to = activeKey st)).

(** The body of the loop of [updateEdgeVisibility] on one line. *)
Definition update_line (st : State) (line : EdgeLine) : EdgeLine :=
  let hl := isHighlighted st (l_from line) (l_to line) in
  let marker := if hl then "url(#arrowHi)" else "url(#arrow)" in
  let opacity :=
    if bool_decide (st_showEdges st = "off") then "0"
    else if bool_decide (st_showEdges st = "all") then (if hl then "1" else "0.4")
    else (if hl then "1" else "0") in
  {| l_from := l_from line; l_to := l_to line;
     l_highlight := hl; l_marker_end := marker;
     l_opacity := opacity; l_dim := l_dim line |}.

Definition updateEdgeVisibility (st : State) (d : Dom) : Dom :=
  {| dom_nodes := dom_nodes d;
     dom_edges := map (update_line st) (dom_edges d) |}.

(** *** Isolate mode *)

Definition set_node_dim (b : bool) (n : NodeElem) : NodeElem :=
  {| n_key := n_key n; n_selected := n_selected n; n_dim := b |}.

Definition set_line_dim (b : bool) (l : EdgeLine) : EdgeLine :=
  {| l_from := l_from l; l_to := l_to l; l_highlight := l_highlight l;
     l_marker_end := l_marker_end l; l_opacity := l_opacity l; l_dim := b |}.

(** The branch that removes all dimming. *)
Definition remove_dimming (d : Dom) : Dom :=
  {| dom_nodes := map (set_node_dim false) (dom_nodes d);
     dom_edges := map (set_line_dim false) (dom_edges d) |}.

(** The two loops after [const visibleKeys = getNeighborKeys(state.selected)]. *)
Definition dim_outside (visibleKeys : gset string) (d : Dom) : Dom :=
  {| dom_nodes :=
       map (λ n, set_node_dim (negb (bool_decide (n_key n ∈ visibleKeys))) n)
           (dom_nodes d);
     dom_edges :=
       map (λ l, set_line_dim
                   (negb (bool_decide (l_from l ∈ visibleKeys)
                          && bool_decide (l_to l ∈ visibleKeys))) l)
           (dom_edges d) |}.

(** [es] is the global edge list. *)
Definition applyIsolateMode (es : list Edge) (st : State) (d : Dom) : Dom :=
  if negb (st_isolateMode st) || negb (truthy_key (st_selected st)) then
    remove_dimming d
  else
    match st_selected st with
    | Some sel => dim_outside (getNeighborKeys es sel) d
    | None => remove_dimming d
    end.

(** [rect.classList.toggle("selected", node.dataset.key === state.selected)] *)
Definition updateNodeSelection (st : State) (d : Dom) : Dom :=
  {| dom_nodes :=
       map (λ n, {| n_key := n_key n;
                    n_selected := bool_decide (Some (n_key n) = st_selected st);
                    n_dim := n_dim n |}) (dom_nodes d);
     dom_edges := dom_edges d |}.

(** *** Rendering the diagram *)

(** The edge loop of [renderDiagram]: a line per edge whose two endpoints
    have a position ([if (!p1 || !p2) continue;]). *)
Definition render_lines (objects : list SchemaObject) : list EdgeLine :=
  omap (λ e, match nodePos objects !! e_from e, nodePos objects !! e_to e with
             | Some _, Some _ =>
                 Some {| l_from := e_from e; l_to := e_to e;
                         l_highlight := false; l_marker_end := "url(#arrow)";
                         l_opacity := ""; l_dim := false |}
             | _, _ => None
             end) (edges objects).

(** The node loop of [renderDiagram]: a group per table that has a position. *)
Definition render_nodes (objects : list SchemaObject) (st : State) : list NodeElem :=
  omap (λ t, match nodePos objects !! o_key t with
             | Some _ =>
                 Some {| n_key := o_key t;
                         n_selected := bool_decide (st_selected st = Some (o_key t));
                         n_dim := false |}
             | None => None
             end) (tables objects).

(** [renderDiagram]: the viewport is cleared and rebuilt, then
    [updateEdgeVisibility()] and [applyIsolateMode()] run on the new
    elements.  (Geometry, titles and the warning mark are presentation.) *)
Definition renderDiagram (objects : list SchemaObject) (st : State) : Dom :=
  applyIsolateMode (edges objects) st
    (updateEdgeVisibility st
       {| dom_nodes := render_nodes objects st;
          dom_edges := render_lines objects |}).

(** ** Handlers *)

(** The state together with the diagram's elements.  The sidebar and the
    inspector panel, which [renderSidebar] and [renderInspector] rewrite
    from the state without assigning to it, are not part of the model. *)
Record World : Type := {
  w_state : State;
  w_dom : Dom
}.

(** The four DOM passes shared by [selectObject] and the Escape branch. *)
Definition refresh (objects : list SchemaObject) (st : State) (d : Dom) : World :=
  {| w_state := st;
     w_dom := applyIsolateMode (edges objects) st
                (updateEdgeVisibility st (updateNodeSelection st d)) |}.

(** [function selectObject(key)]; every call site passes an object's key. *)
Definition selectObject (objects : list SchemaObject) (key : string) (w : World)
  : World :=
  refresh objects (set_selected (Some key) (w_state w)) (w_dom w).

(** [function hoverObject(key)]; [mouseleave] passes [null]. *)
Definition hoverObject (key : option string) (w : World) : World :=
  let st := set_hovered key (w_state w) in
  {| w_state := st; w_dom := updateEdgeVisibility st (w_dom w) |}.

(** [modes[(modes.indexOf(state.showEdges) + 1) % modes.length]] with
    [modes = ["focus", "all", "off"]]; [indexOf] gives [-1] for any other
    string. *)
Definition cycleEdgeMode (w : World) : World :=
  let cur := st_showEdges (w_state w) in
  let next := if bool_decide (cur = "focus") then "all"
              else if bool_decide (cur = "all") then "off"
              else "focus" in
  let st := set_showEdges next (w_state w) in
  {| w_state := st; w_dom := updateEdgeVisibility st (w_dom w) |}.

(** The [change] listener of the isolate checkbox. *)
Definition onIsolateChange (objects : list SchemaObject) (checked : bool)
    (w : World) : World :=
  let st := set_isolateMode checked (w_state w) in
  {| w_state := st; w_dom := applyIsolateMode (edges objects) st (w_dom w) |}.

(** [function setView(view)]: only the diagram view touches the diagram's
    elements. *)
Definition setView (objects : list SchemaObject) (view : string) (w : World)
  : World :=
  let st := set_view view (w_state w) in
  {| w_state := st;
     w_dom := if bool_decide (view = "diagram") then renderDiagram objects st
              else w_dom w |}.

(** The [keydown] listener, on [e.key]. *)
Definition onKeydown (objects : list SchemaObject) (key : string) (w : World)
  : World :=
  let w1 := if bool_decide (key = "Escape")
            then refresh objects
                   (set_hovered None (set_selected None (w_state w))) (w_dom w)
            else w in
  let w2 := if bool_decide (key = "1") then setView objects "diagram" w1 else w1 in
  let w3 := if bool_decide (key = "2") then setView objects "docs" w2 else w2 in
  if bool_decide (key = "3") then setView objects "glossary" w3 else w3.

(** ** Words of the specification *)

(** An index covers a column when the column is the first of the index's
    covered columns. *)
Definition covers (idx : Index) (col_name : string) : Prop :=
  ∃ rest, i_columns idx = Some (col_name :: rest).

Definition covered (tbl : SchemaObject) (col_name : string) : Prop :=
  ∃ idxs idx, o_indexes tbl = Some idxs ∧ idx ∈ idxs ∧ covers idx col_name.

(** The finding the specification expects for a foreign-key column. *)
Definition finding_for (tbl : SchemaObject) (col : Column) (fk : ForeignKey)
  : AuditFinding :=
  {| f_table := o_name tbl;
     f_column := c_name col;
     f_referencedTable := fk_table fk;
     f_suggestion := "CREATE INDEX idx_" +:+ o_name tbl +:+ "_" +:+ c_name col
                       +:+ " ON " +:+ o_name tbl +:+ "(" +:+ c_name col +:+ ");" |}.

(** A table name resolves when some table-kind object of the dataset bears it. *)
Definition resolves (objects : list SchemaObject) (table_name : string) : Prop :=
  Exists (λ o, o_type o = "table" ∧ o_name o = table_name) objects.

(** A column that has a foreign key whose target resolves. *)
Definition fk_resolvable (objects : list SchemaObject) (c : Column) : Prop :=
  match c_fk c with
  | Some fk => resolves objects (fk_table fk)
  | None => False
  end.

#[global] Instance fk_resolvable_dec objects c : Decision (fk_resolvable objects c).
Proof. unfold fk_resolvable, resolves. destruct (c_fk c); apply _. Defined.

(** All columns of all tables, in dataset order. *)
Definition all_columns (objects : list SchemaObject) : list Column :=
  tables objects ≫= λ t, default [] (o_columns t).

(** The "referenced by" pairs as the specification derives them: filter
    the edge list by its [to] endpoint, and read each remaining edge as the
    pair of its source table's name (the source key looked up in [byKey]) and
    its label. *)
Definition references_from_edges (objects : list SchemaObject) (table_key : string)
  : list (string * string) :=
  omap (λ e, (λ src, (o_name src, e_label e)) <$> byKey objects !! e_from e)
       (filter (λ e, e_to e = table_key) (edges objects)).

(** ** Sample data *)

(** A small dataset in the shape of [data.js]: four tables and an enum.
    [locations] has an index that lists [client_id] second and a foreign key
    to a table that does not exist; [trees] has an index that starts with its
    foreign key; [users] has no [indexes] property. *)
Definition col (name : string) : Column := {| c_name := name; c_fk := None |}.

Definition fk_col (name table : string) : Column :=
  {| c_name := name; c_fk := Some {| fk_table := table; fk_column := "id" |} |}.

Definition sample_clients : SchemaObject :=
  {| o_key := "table_clients"; o_type := "table"; o_name := "clients";
     o_columns := Some [col "id"; col "name"];
     o_indexes := Some [ {| i_name := "idx_clients_name";
                            i_columns := Some ["name"] |} ] |}.

Definition sample_locations : SchemaObject :=
  {| o_key := "table_locations"; o_type := "table"; o_name := "locations";
     o_columns := Some [col "id"; fk_col "client_id" "clients";
                        fk_col "region_id" "regions"];
     o_indexes := Some [ {| i_name := "idx_locations_name_client";
                            i_columns := Some ["name"; "client_id"] |} ] |}.

Definition sample_status : SchemaObject :=
  {| o_key := "enum_status"; o_type := "enum"; o_name := "status";
     o_columns := None; o_indexes := None |}.

Definition sample_trees : SchemaObject :=
  {| o_key := "table_trees"; o_type := "table"; o_name := "trees";
     o_columns := Some [col "id"; fk_col "location_id" "locations"];
     o_indexes := Some [ {| i_name := "idx_trees_location";
                            i_columns := Some ["location_id"; "id"] |} ] |}.

Definition sample_users : SchemaObject :=
  {| o_key := "table_users"; o_type := "table"; o_name := "users";
     o_columns := Some [col "id"; fk_col "client_id" "clients"];
     o_indexes := None |}.

Definition sample_objects : list SchemaObject :=
  [sample_clients; sample_locations; sample_status; sample_trees; sample_users].

(** [locations] selected, [clients] hovered, isolate mode on. *)
Definition sample_state : State :=
  set_isolateMode true
    (set_hovered (Some "table_clients")
       (set_selected (Some "table_locations") initial_state)).

Definition sample_dom : Dom := renderDiagram sample_objects sample_state.

(** A dataset in which one table has the empty string as its key. *)
Definition empty_key_objects : list SchemaObject :=
  [ {| o_key := ""; o_type := "table"; o_name := "a";
       o_columns := Some [col "id"]; o_indexes := None |};
    {| o_key := "table_b"; o_type := "table"; o_name := "b";
       o_columns := Some [col "id"; fk_col "a_id" "a"]; o_indexes := None |};
    {| o_key := "table_c"; o_type := "table"; o_name := "c";
       o_columns := Some [col "id"]; o_indexes := None |} ].

(** The page after load, the isolate box checked, the table whose key is
    empty chosen in the sidebar, then the pointer moved over [c]. *)
Definition empty_key_world : World :=
  hoverObject (Some "table_c")
    (selectObject empty_key_objects ""
       (onIsolateChange empty_key_objects true
          {| w_state := initial_state;
             w_dom := renderDiagram empty_key_objects initial_state |})).

(** A [window.SCHEMA] whose only entry has neither [name] nor [type]. *)
Definition nameless_SCHEMA : Js.value :=
  Js.Obj [ ("objects", Js.Arr [ Js.Obj [ ("key", Js.Str "table_x") ] ]) ].

(** ** Warning marks *)

(** [fkIndexIssues.some(i => i.table === t.name)]: the warning mark on a
    diagram node ([renderDiagram]). *)
Definition node_hasWarning (objects : list SchemaObject) (t : SchemaObject) : bool :=
  existsb (λ i, bool_decide (f_table i = o_name t)) (auditFkIndexes objects).

(** [fkIndexIssues.some(i => i.table === obj.name && i.column === col.name)]:
    the "No Index" badge of a column ([renderTechnicalTab]). *)
Definition column_hasWarning (objects : list SchemaObject) (obj : SchemaObject)
    (c : Column) : bool :=
  existsb (λ i, bool_decide (f_table i = o_name obj)
                && bool_decide (f_column i = c_name c))
          (auditFkIndexes objects).

(** ** Node geometry *)

(** [rect.setAttribute("height", 80)]; the width is [NODE_W]. *)
Definition NODE_H : Z := 80.

(** ** Escaping *)

(** [str.replace(/c/g, by)] for a one-character pattern: every occurrence,
    left to right.  Characters are bytes; the three characters replaced
    below are ASCII, and no byte of a multi-byte character equals one. *)
Fixpoint replace_char (c : Ascii.ascii) (by_ : string) (str : string) : string :=
  match str with
  | EmptyString => EmptyString
  | String a rest =>
      if Ascii.eqb a c then by_ +:+ replace_char c by_ rest
      else String a (replace_char c by_ rest)
  end.

(** [str.replace(/&/g, '&amp;').replace(/</g, '&lt;').replace(/>/g, '&gt;')] *)
Definition escapeHtml (str : string) : string :=
  replace_char ">"%char "&gt;"
    (replace_char "<"%char "&lt;" (replace_char "&"%char "&amp;" str)).

(** What one character becomes in the output of [escapeHtml]. *)
Definition escape_char (a : Ascii.ascii) : string :=
  if Ascii.eqb a "&"%char then "&amp;"
  else if Ascii.eqb a "<"%char then "&lt;"
  else if Ascii.eqb a ">"%char then "&gt;"
  else String a EmptyString.

Fixpoint escape_each (str : string) : string :=
  match str with
  | EmptyString => EmptyString
  | String a rest => escape_char a +:+ escape_each rest
  end.

(** [c] occurs in [str]. *)
Fixpoint occurs (c : Ascii.ascii) (str : string) : bool :=
  match str with
  | EmptyString => false
  | String a rest => Ascii.eqb a c || occurs c rest
  end.

(** ** The event loop *)

(** [init()]: the first rendering, on the initial state. *)
Definition init_world (objects : list SchemaObject) : World :=
  {| w_state := initial_state;
     w_dom := renderDiagram objects initial_state |}.

(** The listeners that reach the diagram's elements: a click on a sidebar
    item, a diagram node or a table-of-contents link; the pointer entering or
    leaving a diagram node; the edge button; the isolate checkbox; a view tab;
    a key.  (The search box and the filter chips rewrite the sidebar only;
    dragging, the wheel and the fit and reset buttons set the viewport's
    transform only.) *)
Inductive Event : Type :=
| ClickObject (key : string)
| MouseEnter (key : string)
| MouseLeave
| ToggleEdges
| IsolateChange (checked : bool)
| TabClick (view : string)
| Keydown (key : string).

Definition handle (objects : list SchemaObject) (w : World) (ev : Event) : World :=
  match ev with
  | ClickObject key => selectObject objects key w
  | MouseEnter key => hoverObject (Some key) w
  | MouseLeave => hoverObject None w
  | ToggleEdges => cycleEdgeMode w
  | IsolateChange checked => onIsolateChange objects checked w
  | TabClick view => setView objects view w
  | Keydown key => onKeydown objects key w
  end.

(** The page after a sequence of events. *)
Definition run (objects : list SchemaObject) (evs : list Event) : World :=
  foldl (handle objects) (init_world objects) evs.

(** The diagram shows what a repaint from the state would show: running the
    passes of [selectObject] again changes no element. *)
Definition in_sync (objects : list SchemaObject) (w : World) : Prop :=
  w_dom (refresh objects (w_state w) (w_dom w)) = w_dom w.

(** The diagram has one node per table and one line per edge, in order. *)
Definition shows_graph (objects : list SchemaObject) (d : Dom) : Prop :=
  map n_key (dom_nodes d) = map o_key (tables objects)
  ∧ map (λ l, (l_from l, l_to l)) (dom_edges d)
    = map (λ e, (e_from e, e_to e)) (edges objects).

(** The [is-dim] flag that [applyIsolateMode] gives a node of key [k]. *)
Definition node_dim (es : list Edge) (st : State) (k : string) : bool :=
  if negb (st_isolateMode st) || negb (truthy_key (st_selected st)) then false
  else match st_selected st with
       | Some sel => negb (bool_decide (k ∈ getNeighborKeys es sel))
       | None => false
       end.

(** The [is-dim] flag that [applyIsolateMode] gives a line. *)
Definition line_dim (es : list Edge) (st : State) (from to : string) : bool :=
  if negb (st_isolateMode st) || negb (truthy_key (st_selected st)) then false
  else match st_selected st with
       | Some sel => negb (bool_decide (from ∈ getNeighborKeys es sel)
                           && bool_decide (to ∈ getNeighborKeys es sel))
       | None => false
       end.

(** What the three passes of [refresh] make of a node and of a line. *)
Definition paint_node (es : list Edge) (st : State) (n : NodeElem) : NodeElem :=
  {| n_key := n_key n;
     n_selected := bool_decide (Some (n_key n) = st_selected st);
     n_dim := node_dim es st (n_key n) |}.

Definition paint_line (es : list Edge) (st : State) (l : EdgeLine) : EdgeLine :=
  set_line_dim (line_dim es st (l_from l) (l_to l)) (update_line st l).

(** ** Inspector *)

(** What [renderInspector] puts in the right panel: the "Select an object"
    placeholder, the "Object not found." notice, or the header and tabs of an
    object. *)
Inductive InspectorView : Type :=
| SelectAnObject
| ObjectNotFound
| Showing (obj : SchemaObject).

(** [const activeKey = state.selected || state.hovered;
     if (!activeKey) {...placeholder...; return;}
     const obj = byKey.get(activeKey);
     if (!obj) {...not found...; return;} ...] *)
Definition renderInspector (objects : list SchemaObject) (st : State)
  : InspectorView :=
  if negb (truthy_key (activeKey st)) then SelectAnObject
  else match activeKey st with
       | None => SelectAnObject
       | Some k => match byKey objects !! k with
                   | None => ObjectNotFound
                   | Some obj => Showing obj
                   end
       end.

(** The keys an event carries are keys of objects of the dataset: every
    click and pointer listener is installed for an object and passes that
    object's key. *)
Definition event_from_page (objects : list SchemaObject) (ev : Event) : Prop :=
  match ev with
  | ClickObject key | MouseEnter key => key ∈ map o_key objects
  | _ => True
  end.

(** A key held by the state is [null] or the key of an object. *)
Definition key_known (objects : list SchemaObject) (v : option string) : Prop :=
  match v with
  | None => True
  | Some k => k ∈ map o_key objects
  end.

(** ** Sidebar list *)

(** A row of [#objectList]: a [div.list-header] reading
    [`${label} (${count})`], or a [div.list-item] with its text, its
    [dataset.key] and whether it carries the class [selected]. *)
Inductive SidebarRow : Type :=
| ListHeader (label : string) (count : nat)
| ListItem (text key : string) (selected : bool).

(** [groups] with [labels[g]], in the order of [groups]. *)
Definition sidebar_groups : list (string * string) :=
  [ ("table", "Tables"); ("enum", "Enums"); ("view", "Views");
    ("function", "Functions"); ("trigger", "Triggers") ].

(** The body of [for (const g of groups)] in [renderSidebar], on the list
    [filtered] that the type, domain and search filters leave:
    [items = filtered.filter(o => o.type === g); if (!items.length) continue;]
    then the header and one item per object. *)
Definition sidebar_group (filtered : list SchemaObject) (st : State)
    (rows : list SidebarRow) (g : string * string) : list SidebarRow :=
  let items := filter (λ o, o_type o = fst g) filtered in
  if bool_decide (length items = 0) then rows
  else rows ++ ListHeader (snd g) (length items)
            :: map (λ o, ListItem (o_name o) (o_key o)
                           (bool_decide (st_selected st = Some (o_key o)))) items.

Definition sidebar_rows (filtered : list SchemaObject) (st : State)
  : list SidebarRow :=
  foldl (sidebar_group filtered st) [] sidebar_groups.

(** The keys of the items of a list of rows, in order. *)
Definition item_keys (rows : list SidebarRow) : list string :=
  omap (λ r, match r with
             | ListItem _ key _ => Some key
             | ListHeader _ _ => None
             end) rows.

(** The counts announced by the headers of a list of rows, in order. *)
Definition header_counts (rows : list SidebarRow) : list nat :=
  omap (λ r, match r with
             | ListHeader _ count => Some count
             | ListItem _ _ _ => None
             end) rows.

(** ** Column-name stems *)

(** [s.replace(/suffix$/, '')] for a literal, non-empty suffix: the suffix is
    dropped when [s] ends with it, and [s] is returned as it is otherwise. *)
Fixpoint strip_suffix (suffix s : string) : string :=
  if String.eqb s suffix then ""
  else match s with
       | EmptyString => EmptyString
       | String a rest => String a (strip_suffix suffix rest)
       end.

(** [const baseCol = colName.replace(/_id$/, '').replace(/_by$/, '');] *)
Definition baseCol (colName : string) : string :=
  strip_suffix "_by" (strip_suffix "_id" colName).

(** The key of the second lookup in [explainFkWhy]: [baseCol + "_id"]. *)
Definition heuristic_key (colName : string) : string :=
  baseCol colName +:+ "_id".

(** [s] ends with [suffix]. *)
Definition ends_with (suffix s : string) : Prop :=
  ∃ stem, s = stem +:+ suffix.

(** ** Lemmas on the schema model *)

Section push_loops.
Context {A B : Type}.

(** A loop whose body only ever pushes onto its accumulator produces the
    concatenation of what each iteration pushes. *)
Lemma foldl_push (body : list A → B → list A) :
  (∀ acc b, body acc b = acc ++ body [] b) →
  ∀ l acc, foldl body acc l = acc ++ (l ≫= body []).
Proof.
  intros Hbody l. induction l as [|b l IH]; intros acc; simpl.
  - by rewrite app_nil_r.
  - rewrite IH, Hbody. by rewrite <- app_assoc.
Qed.
End push_loops.

Lemma byType_step_lookup m o ty :
  default [] (byType_step m o !! ty)
  = default [] (m !! ty) ++ (if decide (o_type o = ty) then [o] else []).
Proof.
  unfold byType_step.
  destruct (decide (o_type o = ty)) as [->|Hne].
  - destruct (m !! ty) as [l|] eqn:Hm.
    + by rewrite lookup_alter_eq, Hm.
    + by rewrite lookup_alter_eq, lookup_insert_eq.
  - rewrite lookup_alter_ne by done.
    destruct (m !! o_type o); [|rewrite lookup_insert_ne by done];
      by rewrite app_nil_r.
Qed.

Lemma byType_fold_lookup objects ty : ∀ m,
  default [] (foldl byType_step m objects !! ty)
  = default [] (m !! ty) ++ filter (λ o, o_type o = ty) objects.
Proof.
  induction objects as [|o objects IH]; intros m; simpl.
  - by rewrite app_nil_r.
  - rewrite IH, byType_step_lookup, <- app_assoc. f_equal.
    rewrite filter_cons. by destruct (decide (o_type o = ty)).
Qed.

(** [byType.get("table") || []] and [objects.filter(o => o.type === "table")]
    are the same list. *)
Lemma byType_tables objects : byType_get_or_empty objects "table" = tables objects.
Proof.
  unfold byType_get_or_empty, byType, tables.
  by rewrite byType_fold_lookup, lookup_empty.
Qed.

(** ** FK index audit *)

Lemma hasIndex_covered tbl col_name :
  hasIndex tbl col_name = true ↔ covered tbl col_name.
Proof.
  unfold hasIndex, covered, covers. rewrite existsb_exists. split.
  - intros (idx & Hin & Hidx).
    apply andb_true_iff in Hidx as [_ Hfirst].
    apply bool_decide_eq_true in Hfirst.
    destruct (o_indexes tbl) as [idxs|]; simpl in Hin; [|done].
    exists idxs, idx. split; [done|]. split; [by apply list_elem_of_In|].
    destruct (i_columns idx) as [[|c rest]|]; simpl in Hfirst; try done.
    exists rest. congruence.
  - intros (idxs & idx & Hidxs & Hin & rest & Hcols).
    exists idx. rewrite Hidxs, Hcols. simpl. split; [by apply list_elem_of_In|].
    by apply bool_decide_eq_true.
Qed.

Lemma audit_column_push tbl acc col :
  audit_column tbl acc col = acc ++ audit_column tbl [] col.
Proof.
  unfold audit_column. destruct (c_fk col); [|by rewrite app_nil_r].
  destruct (hasIndex tbl (c_name col)); [by rewrite app_nil_r|done].
Qed.

Lemma audit_table_push acc tbl :
  audit_table acc tbl = acc ++ audit_table [] tbl.
Proof.
  unfold audit_table. destruct (o_columns tbl) as [cols|]; [|by rewrite app_nil_r].
  rewrite !(foldl_push (audit_column tbl)) by apply audit_column_push. done.
Qed.

Lemma audit_table_columns tbl :
  audit_table [] tbl = default [] (o_columns tbl) ≫= audit_column tbl [].
Proof.
  unfold audit_table. destruct (o_columns tbl) as [cols|]; [|done].
  by rewrite (foldl_push (audit_column tbl)) by apply audit_column_push.
Qed.

(** C1. The audit's result is the in-order concatenation, over every table
    and every column of it, of what that column contributes; a column with a
    foreign key contributes exactly one finding
    [{table, column, referencedTable, suggestion}] when no index of the table
    has the column first in its column list, and nothing when one has; a
    column without a foreign key contributes nothing.  In particular every
    foreign-key column of a table without indexes yields its finding, and so
    does one that the table's indexes list only after another column. *)
Theorem auditFkIndexes_findings objects :
  auditFkIndexes objects
  = (tables objects ≫= λ tbl, default [] (o_columns tbl) ≫= audit_column tbl [])
  ∧ (∀ tbl col fk, c_fk col = Some fk →
       (¬ covered tbl (c_name col) →
          audit_column tbl [] col = [finding_for tbl col fk])
       ∧ (covered tbl (c_name col) → audit_column tbl [] col = []))
  ∧ (∀ tbl col, c_fk col = None → audit_column tbl [] col = [])
  ∧ (∀ tbl col fk, c_fk col = Some fk → default [] (o_indexes tbl) = [] →
       audit_column tbl [] col = [finding_for tbl col fk])
  ∧ (∀ tbl col fk, c_fk col = Some fk →
       (∀ idx, idx ∈ default [] (o_indexes tbl) →
          ∃ first rest, i_columns idx = Some (first :: rest)
                        ∧ first ≠ c_name col) →
       audit_column tbl [] col = [finding_for tbl col fk]).
Proof.
  assert (∀ tbl col fk, c_fk col = Some fk → ¬ covered tbl (c_name col) →
            audit_column tbl [] col = [finding_for tbl col fk]) as Hemit.
  { intros tbl col fk Hfk Hnc. unfold audit_column. rewrite Hfk.
    destruct (hasIndex tbl (c_name col)) eqn:Hidx; [|done].
    by apply hasIndex_covered in Hidx. }
  split; [|split; [|split; [|split]]].
  - unfold auditFkIndexes. rewrite byType_tables.
    rewrite (foldl_push audit_table) by apply audit_table_push. simpl.
    apply list_bind_ext; [apply audit_table_columns|done].
  - intros tbl col fk Hfk. split; [by apply Hemit|].
    intros Hcov. apply hasIndex_covered in Hcov.
    unfold audit_column. by rewrite Hfk, Hcov.
  - intros tbl col Hfk. unfold audit_column. by rewrite Hfk.
  - intros tbl col fk Hfk Hnone. apply Hemit; [done|].
    intros (idxs & idx & Hidxs & Hin & _).
    rewrite Hidxs in Hnone. simpl in Hnone. subst idxs. by apply elem_of_nil in Hin.
  - intros tbl col fk Hfk Hlater. apply Hemit; [done|].
    intros (idxs & idx & Hidxs & Hin & rest & Hcols).
    destruct (Hlater idx) as (first & rest' & Hcols' & Hne).
    + by rewrite Hidxs.
    + congruence.
Qed.

(** ** Edge list *)

Lemma find_table_Some objects table_name target :
  find_table objects table_name = Some target →
  target ∈ tables objects ∧ o_name target = table_name.
Proof.
  unfold find_table. intros Hfind. apply find_some in Hfind as [Hin Hp].
  apply andb_true_iff in Hp as [Hty Hnm].
  apply bool_decide_eq_true in Hty, Hnm. split; [|done].
  unfold tables. apply list_elem_of_filter. split; [done|by apply list_elem_of_In].
Qed.

Lemma find_table_resolves objects table_name :
  is_Some (find_table objects table_name) ↔ resolves objects table_name.
Proof.
  unfold resolves. rewrite Exists_exists. split.
  - intros [target Hfind]. exists target.
    unfold find_table in Hfind. apply find_some in Hfind as [Hin Hp].
    apply andb_true_iff in Hp as [Hty Hnm].
    apply bool_decide_eq_true in Hty, Hnm. split; [by apply list_elem_of_In|done].
  - intros (o & Hin & Hty & Hnm).
    destruct (find_table objects table_name) as [target|] eqn:Hfind; [by eexists|].
    unfold find_table in Hfind.
    pose proof (find_none _ _ Hfind o (proj1 (list_elem_of_In _ _) Hin)) as Hp.
    apply andb_false_iff in Hp as [Hp|Hp]; apply bool_decide_eq_false in Hp; done.
Qed.

Lemma edges_column_push objects t acc c :
  edges_column objects t acc c = acc ++ edges_column objects t [] c.
Proof.
  unfold edges_column. destruct (c_fk c) as [fk|]; [|by rewrite app_nil_r].
  destruct (find_table objects (fk_table fk)); [done|by rewrite app_nil_r].
Qed.

Lemma edges_table_push objects acc t :
  edges_table objects acc t = acc ++ edges_table objects [] t.
Proof.
  unfold edges_table. destruct (o_columns t) as [cols|]; [|by rewrite app_nil_r].
  rewrite !(foldl_push (edges_column objects t)) by apply edges_column_push. done.
Qed.

Lemma edges_table_columns objects t :
  edges_table objects [] t = default [] (o_columns t) ≫= edges_column objects t [].
Proof.
  unfold edges_table. destruct (o_columns t) as [cols|]; [|done].
  by rewrite (foldl_push (edges_column objects t)) by apply edges_column_push.
Qed.

Lemma edges_bind objects :
  edges objects
  = (tables objects ≫= λ t, default [] (o_columns t) ≫= edges_column objects t []).
Proof.
  unfold edges. rewrite (foldl_push (edges_table objects)) by apply edges_table_push.
  simpl. apply list_bind_ext; [apply edges_table_columns|done].
Qed.

Lemma edges_column_length objects t c :
  length (edges_column objects t [] c)
  = if decide (fk_resolvable objects c) then 1 else 0.
Proof.
  destruct (decide (fk_resolvable objects c)) as [Hres|Hres];
    unfold edges_column, fk_resolvable in *;
    destruct (c_fk c) as [fk|]; try done.
  - apply find_table_resolves in Hres as [target Hfind]. by rewrite Hfind.
  - destruct (find_table objects (fk_table fk)) as [target|] eqn:Hfind; [|done].
    exfalso. apply Hres, find_table_resolves. by eexists.
Qed.

Lemma edges_columns_length objects t cols :
  length (cols ≫= edges_column objects t [])
  = length (filter (fk_resolvable objects) cols).
Proof.
  induction cols as [|c cols IH]; [done|].
  rewrite bind_cons, List.length_app, IH, edges_column_length, filter_cons.
  by destruct (decide (fk_resolvable objects c)).
Qed.

(** C2. The edge list is the in-order concatenation, over every table and
    every column of it, of what that column contributes: a column whose
    foreign key names a table of the dataset contributes exactly one edge from
    the table's key to the key of a table of that name, labelled with the
    column's name; a column whose foreign key names no table, or that has no
    foreign key, contributes nothing.  Nothing is merged: there are as many
    edges as columns with a resolvable foreign key. *)
Theorem edges_one_per_resolvable_fk objects :
  edges objects
  = (tables objects ≫= λ t, default [] (o_columns t) ≫= edges_column objects t [])
  ∧ (∀ t c fk, c_fk c = Some fk → resolves objects (fk_table fk) →
       ∃ target, target ∈ tables objects ∧ o_name target = fk_table fk
                 ∧ edges_column objects t [] c
                   = [ {| e_from := o_key t; e_to := o_key target;
                          e_label := c_name c |} ])
  ∧ (∀ t c fk, c_fk c = Some fk → ¬ resolves objects (fk_table fk) →
       edges_column objects t [] c = [])
  ∧ (∀ t c, c_fk c = None → edges_column objects t [] c = [])
  ∧ length (edges objects)
    = length (filter (fk_resolvable objects) (all_columns objects)).
Proof.
  split; [apply edges_bind|]. split; [|split; [|split]].
  - intros t c fk Hfk Hres. apply find_table_resolves in Hres as [target Hfind].
    exists target. destruct (find_table_Some _ _ _ Hfind) as [Hin Hnm].
    split; [done|]. split; [done|]. unfold edges_column. by rewrite Hfk, Hfind.
  - intros t c fk Hfk Hres. unfold edges_column. rewrite Hfk.
    destruct (find_table objects (fk_table fk)) eqn:Hfind; [|done].
    exfalso. apply Hres, find_table_resolves. by eexists.
  - intros t c Hfk. unfold edges_column. by rewrite Hfk.
  - rewrite edges_bind. unfold all_columns.
    induction (tables objects) as [|t ts IH]; [done|].
    rewrite !bind_cons, filter_app, !List.length_app, IH.
    by rewrite edges_columns_length.
Qed.

(** ** Neighbours *)

Lemma neighbor_step_elem key s e b :
  b ∈ neighbor_step key s e
  ↔ b ∈ s ∨ (e_from e = key ∧ e_to e = b) ∨ (e_to e = key ∧ e_from e = b).
Proof.
  unfold neighbor_step.
  destruct (bool_decide_reflect (e_from e = key)),
           (bool_decide_reflect (e_to e = key));
    rewrite ?elem_of_union, ?elem_of_singleton; intuition congruence.
Qed.

Lemma neighbor_fold_elem key es b : ∀ s,
  b ∈ foldl (neighbor_step key) s es
  ↔ b ∈ s ∨ ∃ e, e ∈ es ∧ ((e_from e = key ∧ e_to e = b)
                            ∨ (e_to e = key ∧ e_from e = b)).
Proof.
  induction es as [|e es IH]; intros s; simpl.
  - split; [by left|]. intros [?|(e & Hin & _)]; [done|by apply elem_of_nil in Hin].
  - rewrite IH, neighbor_step_elem. split.
    + intros [[Hs|He]|(e' & Hin & He')].
      * by left.
      * right. exists e. split; [by left|done].
      * right. exists e'. split; [by right|done].
    + intros [Hs|(e' & Hin & He')]; [by left; left|].
      apply elem_of_cons in Hin as [->|Hin]; [by left; right|].
      right. by exists e'.
Qed.

(** The neighbours of [a]: [a] itself and the other endpoint of every edge
    that has [a] as an endpoint. *)
Lemma getNeighborKeys_elem es a b :
  b ∈ getNeighborKeys es a
  ↔ b = a ∨ ∃ e, e ∈ es ∧ ((e_from e = a ∧ e_to e = b) ∨ (e_to e = a ∧ e_from e = b)).
Proof.
  unfold getNeighborKeys. rewrite neighbor_fold_elem. by rewrite elem_of_singleton.
Qed.

(** C6. For every edge list and keys [a], [b]: [b] is a neighbour of [a]
    exactly when [a] is a neighbour of [b], and [a] is a neighbour of
    itself. *)
Theorem getNeighborKeys_symmetric_reflexive (es : list Edge) (a b : string) :
  (b ∈ getNeighborKeys es a ↔ a ∈ getNeighborKeys es b)
  ∧ a ∈ getNeighborKeys es a.
Proof.
  split.
  - rewrite !getNeighborKeys_elem. split.
    + intros [->|(e & Hin & He)]; [by left|]. right. exists e. tauto.
    + intros [->|(e & Hin & He)]; [by left|]. right. exists e. tauto.
  - apply getNeighborKeys_elem. by left.
Qed.

(** ** Edge visibility and highlighting *)

(** A pass that rewrites every element in place keeps the elements'
    positions. *)
Lemma map_lookup {A B} (f : A → B) (l : list A) (i : nat) :
  map f l !! i = f <$> l !! i.
Proof.
  revert i. induction l as [|a l IH]; intros [|i]; simpl; auto.
Qed.

Lemma updateEdgeVisibility_line st d i line :
  dom_edges d !! i = Some line →
  dom_edges (updateEdgeVisibility st d) !! i = Some (update_line st line).
Proof. intros Hline. simpl. by rewrite map_lookup, Hline. Qed.

(** C4. After [updateEdgeVisibility], every edge line has the opacity its
    mode and highlight status give it: ["0"] in mode [off] whatever the
    highlight; in mode [all], ["1"] when highlighted and ["0.4"] otherwise; in
    mode [focus], ["1"] when highlighted and ["0"] otherwise. *)
Theorem updateEdgeVisibility_opacity st d i line :
  dom_edges d !! i = Some line →
  ∃ line', dom_edges (updateEdgeVisibility st d) !! i = Some line'
    ∧ l_from line' = l_from line ∧ l_to line' = l_to line
    ∧ l_highlight line' = isHighlighted st (l_from line) (l_to line)
    ∧ (st_showEdges st = "off" → l_opacity line' = "0")
    ∧ (st_showEdges st = "all" →
         l_opacity line' = if l_highlight line' then "1" else "0.4")
    ∧ (st_showEdges st = "focus" →
         l_opacity line' = if l_highlight line' then "1" else "0").
Proof.
  intros Hline. exists (update_line st line).
  split; [by apply updateEdgeVisibility_line|].
  repeat split; intros Hmode; simpl; by rewrite Hmode.
Qed.

Lemma truthy_key_Some v :
  truthy_key v = true ↔ ∃ k, v = Some k ∧ k ≠ "".
Proof.
  destruct v as [k|]; simpl.
  - rewrite negb_true_iff. split.
    + intros Hk. exists k. split; [done|]. intros ->. by rewrite String.eqb_refl in Hk.
    + intros (k' & [= <-] & Hne). by apply String.eqb_neq.
  - split; [done|]. by intros (k & ? & _).
Qed.


Lemma isHighlighted_iff st from to :
  isHighlighted st from to = true
  ↔ ∃ k, activeKey st = Some k ∧ k ≠ "" ∧ (from = k ∨ to = k).
Proof.
  unfold isHighlighted.
  rewrite andb_true_iff, orb_true_iff, !bool_decide_eq_true, truthy_key_Some.
  split.
  - intros ((k & Hk & Hne) & Hend). exists k. rewrite Hk in Hend.
    split; [done|]. split; [done|]. destruct Hend as [[= ->]|[= ->]]; auto.
  - intros (k & Hk & Hne & Hend). rewrite Hk. split; [by exists k|].
    destruct Hend as [->| ->]; auto.
Qed.


(** ** Isolate mode *)





(** ** Selection *)

(** C8.  [selectObject(key)] assigns [key] to [state.selected] and leaves
    every other field of the state as it was, the hovered key included; the
    Escape key clears both the selected and the hovered key and leaves every
    other field as it was.  In both cases the edge mode, the isolate flag,
    pan, zoom and the view are unchanged. *)
Theorem selectObject_frame objects key w :
  (let st := w_state w in
   let st' := w_state (selectObject objects key w) in
   st_selected st' = Some key
   ∧ st_hovered st' = st_hovered st
   ∧ st_showEdges st' = st_showEdges st
   ∧ st_isolateMode st' = st_isolateMode st
   ∧ st_pan st' = st_pan st
   ∧ st_zoom st' = st_zoom st
   ∧ st_view st' = st_view st
   ∧ st_filter st' = st_filter st
   ∧ st_typeFilter st' = st_typeFilter st
   ∧ st_domainFilter st' = st_domainFilter st)
  ∧ (let st := w_state w in
     let st' := w_state (onKeydown objects "Escape" w) in
     st_selected st' = None
     ∧ st_hovered st' = None
     ∧ st_showEdges st' = st_showEdges st
     ∧ st_isolateMode st' = st_isolateMode st
     ∧ st_pan st' = st_pan st
     ∧ st_zoom st' = st_zoom st
     ∧ st_view st' = st_view st
     ∧ st_filter st' = st_filter st
     ∧ st_typeFilter st' = st_typeFilter st
     ∧ st_domainFilter st' = st_domainFilter st).
Proof. split; cbn; repeat split. Qed.

(** ** Layout *)

Lemma layout_from_other ts k : ∀ i m,
  (∀ t, t ∈ ts → o_key t ≠ k) →
  layout_from i m ts !! k = m !! k.
Proof.
  induction ts as [|t ts IH]; intros i m Hk; simpl; [done|].
  rewrite IH by (intros t' Ht'; apply Hk; by right).
  apply lookup_insert_ne, Hk. by left.
Qed.

(** In [layout_from i m ts], the last table of [ts] that holds a key decides
    the key's position. *)
Lemma layout_from_lookup ts : ∀ i m j t,
  ts !! j = Some t →
  (∀ j' t', j < j' → ts !! j' = Some t' → o_key t' ≠ o_key t) →
  layout_from i m ts !! o_key t = Some (grid_pos (i + j)).
Proof.
  induction ts as [|a ts IH]; intros i m j t Hj Hlast; [done|].
  destruct j as [|j]; simpl in *.
  - injection Hj as ->. rewrite layout_from_other.
    + by rewrite lookup_insert_eq, Nat.add_0_r.
    + intros t' Ht'. apply list_elem_of_lookup in Ht' as [j' Hj'].
      apply (Hlast (S j')); [lia|done].
  - rewrite (IH (S i) _ j t Hj).
    + f_equal. f_equal. lia.
    + intros j' t' Hlt Hj'. apply (Hlast (S j')); [lia|done].
Qed.

Lemma layout_from_keys ts1 : ∀ ts2 i m,
  o_key <$> ts1 = o_key <$> ts2 →
  layout_from i m ts1 = layout_from i m ts2.
Proof.
  induction ts1 as [|t1 ts1 IH]; intros [|t2 ts2] i m Hkeys; try done.
  simpl in *. injection Hkeys as Hk Hrest. rewrite Hk. by apply IH.
Qed.

(** C7.  With unique keys, the table at position [i] of the table list is
    placed at column [i mod 6] and row [i / 6] of the grid:
    [x = column * (200 + 40) + 50], [y = row * 160 + 50].  The positions
    depend on nothing but the order of the tables' keys, so that laying out
    the same list again gives the same positions. *)
Theorem nodePos_grid objects :
  NoDup (o_key <$> tables objects) →
  (∀ i t, tables objects !! i = Some t →
     ∃ p, nodePos objects !! o_key t = Some p
       ∧ x p = ((Z.of_nat i `mod` 6) * (200 + 40) + 50)%Z
       ∧ y p = ((Z.of_nat i `div` 6) * 160 + 50)%Z)
  ∧ (∀ objects', o_key <$> tables objects' = o_key <$> tables objects →
       nodePos objects' = nodePos objects).
Proof.
  intros Hnodup. split.
  - intros i t Hi. exists (grid_pos i). split; [|done].
    unfold nodePos. rewrite (layout_from_lookup _ 0 ∅ i t Hi); [done|].
    intros j' t' Hlt Hj' Heq.
    assert (i = j'); [|lia].
    eapply NoDup_lookup; [exact Hnodup| |].
    + by rewrite list_lookup_fmap, Hi.
    + by rewrite list_lookup_fmap, Hj', <- Heq.
  - intros objects' Hkeys. unfold nodePos. by apply layout_from_keys.
Qed.

(** ** Incoming references *)

Section bind_lemmas.
Context {A B C : Type}.

Lemma bind_ext_elem (f g : A → list B) (l : list A) :
  (∀ a, a ∈ l → f a = g a) → l ≫= f = l ≫= g.
Proof.
  induction l as [|a l IH]; intros Hfg; [done|].
  rewrite !bind_cons, Hfg by (by left). f_equal. apply IH.
  intros a' Ha'. apply Hfg. by right.
Qed.

Lemma filter_bind (P : B → Prop) `{!∀ b, Decision (P b)}
    (f : A → list B) (l : list A) :
  filter P (l ≫= f) = l ≫= λ a, filter P (f a).
Proof.
  induction l as [|a l IH]; [done|]. by rewrite !bind_cons, filter_app, IH.
Qed.

Lemma omap_bind (g : B → option C) (f : A → list B) (l : list A) :
  omap g (l ≫= f) = l ≫= λ a, omap g (f a).
Proof.
  induction l as [|a l IH]; [done|]. by rewrite !bind_cons, omap_app, IH.
Qed.
End bind_lemmas.

Lemma byKey_fold_other objects k : ∀ m : gmap string SchemaObject,
  (∀ o, o ∈ objects → o_key o ≠ k) →
  foldl (λ m o, <[o_key o := o]> m) m objects !! k = m !! k.
Proof.
  induction objects as [|a objects IH]; intros m Hk; simpl; [done|].
  rewrite IH by (intros o Ho; apply Hk; by right).
  apply lookup_insert_ne, Hk. by left.
Qed.

Lemma byKey_fold_lookup objects o : ∀ m : gmap string SchemaObject,
  NoDup (o_key <$> objects) → o ∈ objects →
  foldl (λ m o, <[o_key o := o]> m) m objects !! o_key o = Some o.
Proof.
  induction objects as [|a objects IH]; intros m Hnodup Hin.
  - by apply elem_of_nil in Hin.
  - rewrite fmap_cons in Hnodup. apply NoDup_cons in Hnodup as [Hfresh Hnodup].
    simpl. apply elem_of_cons in Hin as [->|Hin]; [|by apply IH].
    rewrite byKey_fold_other; [apply lookup_insert_eq|].
    intros o Ho Heq. apply Hfresh. rewrite <- Heq. by apply list_elem_of_fmap_2.
Qed.

(** With unique keys, [byKey.get(o.key)] is [o]. *)
Lemma byKey_lookup objects o :
  NoDup (o_key <$> objects) → o ∈ objects → byKey objects !! o_key o = Some o.
Proof. apply byKey_fold_lookup. Qed.

Lemma key_inj objects o1 o2 :
  NoDup (o_key <$> objects) → o1 ∈ objects → o2 ∈ objects →
  o_key o1 = o_key o2 → o1 = o2.
Proof.
  intros Hnodup H1 H2 Heq.
  pose proof (byKey_lookup objects o1 Hnodup H1) as L1.
  pose proof (byKey_lookup objects o2 Hnodup H2) as L2.
  rewrite Heq in L1. congruence.
Qed.

Lemma tables_elem objects t :
  t ∈ tables objects ↔ o_type t = "table" ∧ t ∈ objects.
Proof. unfold tables. by rewrite list_elem_of_filter. Qed.

Lemma incoming_column_push tableName tbl acc col :
  incoming_column tableName tbl acc col
  = acc ++ incoming_column tableName tbl [] col.
Proof.
  unfold incoming_column. destruct (c_fk col); [|by rewrite app_nil_r].
  case_bool_decide; [done|by rewrite app_nil_r].
Qed.

Lemma incoming_table_push tableName acc tbl :
  incoming_table tableName acc tbl = acc ++ incoming_table tableName [] tbl.
Proof.
  unfold incoming_table. destruct (o_columns tbl) as [cols|]; [|by rewrite app_nil_r].
  rewrite !(foldl_push (incoming_column tableName tbl))
    by apply incoming_column_push. done.
Qed.

Lemma findIncomingReferences_bind objects tableName :
  findIncomingReferences objects tableName
  = (tables objects ≫= λ tbl,
       default [] (o_columns tbl) ≫= incoming_column tableName tbl []).
Proof.
  unfold findIncomingReferences. rewrite byType_tables.
  rewrite (foldl_push (incoming_table tableName)) by apply incoming_table_push.
  simpl. apply list_bind_ext; [|done]. intros tbl. unfold incoming_table.
  destruct (o_columns tbl) as [cols|]; [|done].
  by rewrite (foldl_push (incoming_column tableName tbl))
    by apply incoming_column_push.
Qed.

(** C10.  With unique keys, and for a table [T] whose name no other table
    bears, the column scan [findIncomingReferences(T.name)] returns exactly
    the pairs (source table name, source column name) of the edges whose [to]
    endpoint is [T]'s key, in the same order. *)
Theorem findIncomingReferences_edges objects T :
  NoDup (o_key <$> objects) →
  T ∈ tables objects →
  (∀ T', T' ∈ tables objects → o_name T' = o_name T → T' = T) →
  findIncomingReferences objects (o_name T)
  = references_from_edges objects (o_key T).
Proof.
  intros Hnodup HT Huniq. unfold references_from_edges.
  rewrite findIncomingReferences_bind, edges_bind, filter_bind, omap_bind.
  apply bind_ext_elem. intros t Ht.
  rewrite filter_bind, omap_bind. apply list_bind_ext; [|done]. intros c.
  apply tables_elem in Ht as Ht'. destruct Ht' as [_ Ht'].
  apply tables_elem in HT as HT'. destruct HT' as [HTty HT'].
  unfold incoming_column, edges_column. destruct (c_fk c) as [fk|]; [|done].
  destruct (find_table objects (fk_table fk)) as [target|] eqn:Hfind.
  - destruct (find_table_Some _ _ _ Hfind) as [Htarget Hname].
    apply tables_elem in Htarget as Htarget'. destruct Htarget' as [_ Htarget'].
    simpl. rewrite filter_cons, filter_nil. simpl.
    destruct (decide (o_key target = o_key T)) as [Hk|Hk].
    + apply (key_inj objects) in Hk; [|done..]. subst target.
      rewrite bool_decide_eq_true_2 by done. simpl.
      by rewrite (byKey_lookup objects t Hnodup Ht').
    + rewrite bool_decide_eq_false_2; [done|].
      intros Heq. apply Hk. f_equal. apply Huniq; [done|congruence].
  - rewrite bool_decide_eq_false_2; [done|].
    intros Heq. assert (is_Some (find_table objects (fk_table fk))) as [? ?];
      [|congruence].
    apply find_table_resolves. unfold resolves. apply Exists_exists.
    exists T. by rewrite Heq.
Qed.


(** ** Startup *)

(** C9, as stated, fails: a dataset whose entry has neither [name] nor
    [type] passes the guard and is entered in the lookups; no configuration
    error is reported. *)
Lemma startup_malformed_entry_counterexample :
  ∃ objs, startup nameless_SCHEMA = LookupsBuilt objs
          ∧ Exists (λ o, entry_malformed o = true) objs.
Proof.
  exists [ Js.Obj [ ("key", Js.Str "table_x") ] ]. split; [done|].
  by apply Exists_cons_hd.
Qed.

Lemma existsb_nullish objs :
  existsb Js.nullish objs = false ↔ Forall (λ o, Js.nullish o = false) objs.
Proof.
  induction objs as [|o objs IH]; simpl.
  - split; [constructor|done].
  - rewrite orb_false_iff, Forall_cons, IH. done.
Qed.

(** C9, amended.  The guard refuses to start, logging
    ["SCHEMA not found. Make sure data.js loads before app.js."] with
    [console.error], exactly when [window.SCHEMA] is falsy or its [objects]
    is not an array.  Past the guard the entries are not validated: when none
    of them is [null] or [undefined] the lookups are built from them, whether
    or not they have a [name] and a [type]; when one of them is [null] or
    [undefined] the script stops with an uncaught [TypeError], not with the
    configuration error. *)
Theorem startup_guard w :
  (Js.truthy w = false ∨ Js.isArray (Js.get w "objects") = false →
     startup w = Refused "SCHEMA not found. Make sure data.js loads before app.js.")
  ∧ (∀ msg, startup w = Refused msg →
       (Js.truthy w = false ∨ Js.isArray (Js.get w "objects") = false)
       ∧ msg = "SCHEMA not found. Make sure data.js loads before app.js.")
  ∧ (∀ objs, Js.truthy w = true → Js.get w "objects" = Js.Arr objs →
       Forall (λ o, Js.nullish o = false) objs →
       startup w = LookupsBuilt objs)
  ∧ (∀ objs, Js.truthy w = true → Js.get w "objects" = Js.Arr objs →
       Exists (λ o, Js.nullish o = true) objs →
       startup w = Throws).
Proof.
  unfold startup. split; [|split; [|split]].
  - intros [-> | ->]; [done|]. by rewrite orb_true_r.
  - intros msg.
    destruct (Js.truthy w); simpl; [|by intros [= <-]; split; [left|]].
    destruct (Js.isArray (Js.get w "objects")); simpl;
      [|by intros [= <-]; split; [right|]].
    by destruct (existsb Js.nullish _).
  - intros objs -> -> Hall. simpl. apply existsb_nullish in Hall. by rewrite Hall.
  - intros objs -> -> Hex. simpl.
    destruct (existsb Js.nullish objs) eqn:Hnone; [done|].
    apply existsb_nullish in Hnone. rewrite Forall_forall in Hnone.
    apply Exists_exists in Hex as (o & Ho & Hnull).
    rewrite (Hnone o Ho) in Hnull. done.
Qed.

Lemma startup_guard_witness :
  startup Js.Undefined
  = Refused "SCHEMA not found. Make sure data.js loads before app.js."
  ∧ startup (Js.Obj [ ("objects", Js.Str "none") ])
    = Refused "SCHEMA not found. Make sure data.js loads before app.js."
  ∧ startup nameless_SCHEMA
    = LookupsBuilt [ Js.Obj [ ("key", Js.Str "table_x") ] ]
  ∧ startup (Js.Obj [ ("objects", Js.Arr [ Js.Null ]) ]) = Throws.
Proof.
  split; [|split; [|split]].
  - apply (startup_guard Js.Undefined). left. reflexivity.
  - apply (startup_guard (Js.Obj [ ("objects", Js.Str "none") ])). right. reflexivity.
  - apply (startup_guard nameless_SCHEMA); [reflexivity|reflexivity|].
    repeat constructor.
  - destruct (startup_guard (Js.Obj [ ("objects", Js.Arr [ Js.Null ]) ]))
      as (_ & _ & _ & Hthrows).
    apply (Hthrows [ Js.Null ]); [reflexivity|reflexivity|].
    by apply Exists_cons_hd.
Defined.

(** ** The theorems at the sample data *)

Lemma sample_locations_client_id_uncovered :
  ¬ covered sample_locations "client_id".
Proof. rewrite <- hasIndex_covered. by vm_compute. Qed.

Lemma sample_trees_location_id_covered :
  covered sample_trees "location_id".
Proof. apply hasIndex_covered. by vm_compute. Qed.

Lemma auditFkIndexes_findings_witness :
  audit_column sample_locations [] (fk_col "client_id" "clients")
  = [ {| f_table := "locations"; f_column := "client_id";
         f_referencedTable := "clients";
         f_suggestion :=
           "CREATE INDEX idx_locations_client_id ON locations(client_id);" |} ]
  ∧ audit_column sample_trees [] (fk_col "location_id" "locations") = []
  ∧ audit_column sample_locations [] (col "id") = []
  ∧ audit_column sample_users [] (fk_col "client_id" "clients")
    = [ {| f_table := "users"; f_column := "client_id";
           f_referencedTable := "clients";
           f_suggestion :=
             "CREATE INDEX idx_users_client_id ON users(client_id);" |} ]
  ∧ audit_column sample_locations [] (fk_col "region_id" "regions")
    = [ {| f_table := "locations"; f_column := "region_id";
           f_referencedTable := "regions";
           f_suggestion :=
             "CREATE INDEX idx_locations_region_id ON locations(region_id);" |} ].
Proof.
  destruct (auditFkIndexes_findings sample_objects)
    as (_ & Hfk & Hnofk & Hnoidx & Hlater).
  split; [|split; [|split; [|split]]].
  - apply (Hfk sample_locations (fk_col "client_id" "clients")
             {| fk_table := "clients"; fk_column := "id" |}); [reflexivity|].
    exact sample_locations_client_id_uncovered.
  - apply (Hfk sample_trees (fk_col "location_id" "locations")
             {| fk_table := "locations"; fk_column := "id" |}); [reflexivity|].
    exact sample_trees_location_id_covered.
  - apply (Hnofk sample_locations (col "id")). reflexivity.
  - apply (Hnoidx sample_users (fk_col "client_id" "clients")
             {| fk_table := "clients"; fk_column := "id" |}); reflexivity.
  - apply (Hlater sample_locations (fk_col "region_id" "regions")
             {| fk_table := "regions"; fk_column := "id" |}); [reflexivity|].
    intros idx Hidx. apply list_elem_of_singleton in Hidx as ->.
    exists "name", ["client_id"]. split; [reflexivity|discriminate].
Defined.

Lemma sample_clients_resolves : resolves sample_objects "clients".
Proof. apply Exists_cons_hd. by split. Qed.

Lemma sample_regions_unresolved : ¬ resolves sample_objects "regions".
Proof. rewrite <- find_table_resolves. vm_compute. by intros [? ?]. Qed.

Lemma edges_one_per_resolvable_fk_witness :
  (∃ target, target ∈ tables sample_objects ∧ o_name target = "clients"
     ∧ edges_column sample_objects sample_locations []
         (fk_col "client_id" "clients")
       = [ {| e_from := "table_locations"; e_to := o_key target;
              e_label := "client_id" |} ])
  ∧ edges_column sample_objects sample_locations []
      (fk_col "region_id" "regions") = []
  ∧ edges_column sample_objects sample_locations [] (col "id") = [].
Proof.
  destruct (edges_one_per_resolvable_fk sample_objects)
    as (_ & Hres & Hdangling & Hnofk & _).
  split; [|split].
  - apply (Hres sample_locations (fk_col "client_id" "clients")
             {| fk_table := "clients"; fk_column := "id" |}); [reflexivity|].
    exact sample_clients_resolves.
  - apply (Hdangling sample_locations (fk_col "region_id" "regions")
             {| fk_table := "regions"; fk_column := "id" |}); [reflexivity|].
    exact sample_regions_unresolved.
  - apply (Hnofk sample_locations (col "id")). reflexivity.
Defined.

Lemma updateEdgeVisibility_opacity_witness :
  ∃ line',
    dom_edges (updateEdgeVisibility sample_state sample_dom) !! 2 = Some line'
    ∧ l_from line' = "table_users" ∧ l_to line' = "table_clients"
    ∧ l_highlight line' = false ∧ l_opacity line' = "0".
Proof.
  destruct (updateEdgeVisibility_opacity sample_state sample_dom 2
              {| l_from := "table_users"; l_to := "table_clients";
                 l_highlight := false; l_marker_end := "url(#arrow)";
                 l_opacity := "0"; l_dim := true |} eq_refl)
    as (line' & Hline & Hfrom & Hto & Hhl & _ & _ & Hfocus).
  exists line'. split; [exact Hline|]. split; [exact Hfrom|]. split; [exact Hto|].
  split; [exact Hhl|]. rewrite (Hfocus eq_refl), Hhl. reflexivity.
Defined.

(** The failing input of C5: the table whose key is the empty string is
    selected, yet the active key is the hovered key, and the edge that ends at
    the selected table is not highlighted. *)
Lemma activeKey_empty_key_failing_input :
  let st := w_state empty_key_world in
  st_selected st = Some ""
  ∧ st_hovered st = Some "table_c"
  ∧ activeKey st = Some "table_c"
  ∧ ∃ line, dom_edges (updateEdgeVisibility st (w_dom empty_key_world)) !! 0
            = Some line
            ∧ l_to line = "" ∧ l_highlight line = false.
Proof.
  repeat split. eexists. split; [by vm_compute|]. by split.
Qed.


(** The failing input of C3: isolate mode is on and the table whose key is
    the empty string is selected, yet the node of [c], which is not among the
    neighbours of the selected key, is not dimmed. *)
Lemma applyIsolateMode_empty_key_failing_input :
  let es := edges empty_key_objects in
  let st := w_state empty_key_world in
  st_isolateMode st = true
  ∧ st_selected st = Some ""
  ∧ ∃ n, dom_nodes (applyIsolateMode es st (w_dom empty_key_world)) !! 2 = Some n
         ∧ n_key n = "table_c"
         ∧ (n_key n ∉ getNeighborKeys es "")
         ∧ n_dim n = false.
Proof.
  repeat split. eexists. split; [by vm_compute|]. split; [done|]. split; [|done].
  simpl. rewrite getNeighborKeys_elem. intros [?|(e & He & Hend)]; [done|].
  change (edges empty_key_objects)
    with [ {| e_from := "table_b"; e_to := ""; e_label := "a_id" |} ] in He.
  apply list_elem_of_singleton in He as ->. simpl in Hend.
  destruct Hend as [[? ?]|[? ?]]; done.
Qed.


Lemma sample_keys_unique : NoDup (o_key <$> sample_objects).
Proof. by apply (bool_decide_unpack _). Qed.

Lemma sample_table_keys_unique : NoDup (o_key <$> tables sample_objects).
Proof. by apply (bool_decide_unpack _). Qed.

Lemma nodePos_grid_witness :
  (∃ p, nodePos sample_objects !! "table_users" = Some p
        ∧ x p = ((Z.of_nat 3 `mod` 6) * (200 + 40) + 50)%Z
        ∧ y p = ((Z.of_nat 3 `div` 6) * 160 + 50)%Z)
  ∧ nodePos (sample_status :: sample_objects) = nodePos sample_objects.
Proof.
  destruct (nodePos_grid sample_objects sample_table_keys_unique)
    as [Hplace Hsame].
  split.
  - apply (Hplace 3 sample_users). reflexivity.
  - apply Hsame. reflexivity.
Defined.

Lemma sample_clients_name_unique T' :
  T' ∈ tables sample_objects → o_name T' = o_name sample_clients →
  T' = sample_clients.
Proof.
  intros Hin Hname.
  change (tables sample_objects)
    with [sample_clients; sample_locations; sample_trees; sample_users] in Hin.
  repeat (apply elem_of_cons in Hin as [->|Hin]; [done|]).
  by apply elem_of_nil in Hin.
Qed.

Lemma findIncomingReferences_edges_witness :
  findIncomingReferences sample_objects "clients"
  = references_from_edges sample_objects "table_clients".
Proof.
  apply (findIncomingReferences_edges sample_objects sample_clients).
  - exact sample_keys_unique.
  - apply tables_elem. split; [reflexivity|]. by left.
  - exact sample_clients_name_unique.
Defined.

(** ** The schema model as a lookup structure *)

Lemma byKey_snoc objects a :
  byKey (objects ++ [a]) = <[o_key a := a]> (byKey objects).
Proof. unfold byKey. by rewrite foldl_app. Qed.

Lemma byKey_spec objects k :
  (∀ o, byKey objects !! k = Some o
        ↔ ∃ before after, objects = before ++ o :: after ∧ o_key o = k
                          ∧ ∀ o', o' ∈ after → o_key o' ≠ k)
  ∧ (byKey objects !! k = None ↔ ∀ o, o ∈ objects → o_key o ≠ k).
Proof.
  induction objects as [|a objects [IHsome IHnone]] using rev_ind.
  - split.
    + intros o. unfold byKey. simpl. rewrite lookup_empty. split; [done|].
      intros (before & after & Heq & _). by destruct before.
    + split; [|done]. intros _ o Ho. by apply elem_of_nil in Ho.
  - rewrite byKey_snoc. split.
    + intros o. destruct (decide (o_key a = k)) as [Hk|Hk].
      * rewrite <- Hk, lookup_insert_eq. split.
        -- intros [= <-]. exists objects, []. split; [done|]. split; [done|].
           intros o' Ho'. by apply elem_of_nil in Ho'.
        -- intros (before & after & Heq & Hko & Hafter).
           destruct after as [|b after _] using rev_ind.
           ++ apply app_inj_tail in Heq as [_ ->]. done.
           ++ rewrite app_comm_cons, app_assoc in Heq.
              apply app_inj_tail in Heq as [_ ->].
              exfalso. apply (Hafter b); [|congruence].
              apply elem_of_app. right. by left.
      * rewrite lookup_insert_ne by done. rewrite IHsome. split.
        -- intros (before & after & -> & Hko & Hafter).
           exists before, (after ++ [a]). rewrite <- app_assoc. split; [done|].
           split; [done|]. intros o' Ho'.
           apply elem_of_app in Ho' as [Ho'|Ho']; [by apply Hafter|].
           apply list_elem_of_singleton in Ho' as ->. done.
        -- intros (before & after & Heq & Hko & Hafter).
           destruct after as [|b after _] using rev_ind.
           ++ apply app_inj_tail in Heq as [_ ->]. done.
           ++ rewrite app_comm_cons, app_assoc in Heq.
              apply app_inj_tail in Heq as [-> ->].
              exists before, after. split; [done|]. split; [done|].
              intros o' Ho'. apply Hafter, elem_of_app. by left.
    + destruct (decide (o_key a = k)) as [Hk|Hk].
      * rewrite <- Hk, lookup_insert_eq. split; [done|].
        intros Hnone. exfalso. apply (Hnone a); [|done].
        apply elem_of_app. right. by left.
      * rewrite lookup_insert_ne by done. rewrite IHnone. split.
        -- intros Hnone o Ho. apply elem_of_app in Ho as [Ho|Ho]; [by apply Hnone|].
           apply list_elem_of_singleton in Ho as ->. done.
        -- intros Hnone o Ho. apply Hnone, elem_of_app. by left.
Qed.

(** X1.  [byKey.get(k)] is the last object of the dataset whose key is [k],
    and is absent exactly when no object has that key. *)
Theorem byKey_get objects k :
  (∀ o, byKey objects !! k = Some o
        ↔ ∃ before after, objects = before ++ o :: after ∧ o_key o = k
                          ∧ ∀ o', o' ∈ after → o_key o' ≠ k)
  ∧ (byKey objects !! k = None ↔ ∀ o, o ∈ objects → o_key o ≠ k).
Proof. apply byKey_spec. Qed.

Lemma byType_snoc objects a :
  byType (objects ++ [a]) = byType_step (byType objects) a.
Proof. unfold byType. by rewrite foldl_app. Qed.

Lemma byType_step_lookup_eq m o :
  byType_step m o !! o_type o = Some (default [] (m !! o_type o) ++ [o]).
Proof.
  unfold byType_step. destruct (m !! o_type o) as [l|] eqn:Hm.
  - by rewrite lookup_alter_eq, Hm.
  - by rewrite lookup_alter_eq, lookup_insert_eq.
Qed.

Lemma byType_step_lookup_ne m o ty :
  o_type o ≠ ty → byType_step m o !! ty = m !! ty.
Proof.
  intros Hne. unfold byType_step. rewrite lookup_alter_ne by done.
  destruct (m !! o_type o); [done|]. by rewrite lookup_insert_ne.
Qed.

(** X2.  [byType.get(ty)] is absent when the dataset has no object of type
    [ty], and otherwise holds exactly the objects of that type, in dataset
    order; the map never holds an empty array. *)
Theorem byType_get objects ty :
  byType objects !! ty
  = match filter (λ o, o_type o = ty) objects with
    | [] => None
    | group => Some group
    end.
Proof.
  induction objects as [|a objects IH] using rev_ind; [done|].
  rewrite byType_snoc, filter_app, filter_cons, filter_nil.
  destruct (decide (o_type a = ty)) as [<-|Hne].
  - rewrite byType_step_lookup_eq, IH.
    destruct (filter (λ o, o_type o = o_type a) objects) as [|b group]; done.
  - rewrite byType_step_lookup_ne by done. by rewrite IH, app_nil_r.
Qed.

(** ** Warning marks *)

Lemma auditFkIndexes_bind objects :
  auditFkIndexes objects
  = (tables objects ≫= λ tbl, default [] (o_columns tbl) ≫= audit_column tbl []).
Proof.
  unfold auditFkIndexes. rewrite byType_tables.
  rewrite (foldl_push audit_table) by apply audit_table_push. simpl.
  apply list_bind_ext; [apply audit_table_columns|done].
Qed.

Lemma audit_column_elem tbl c f :
  f ∈ audit_column tbl [] c
  ↔ ∃ fk, c_fk c = Some fk ∧ ¬ covered tbl (c_name c) ∧ f = finding_for tbl c fk.
Proof.
  unfold audit_column. destruct (c_fk c) as [fk|].
  - destruct (hasIndex tbl (c_name c)) eqn:Hidx.
    + apply hasIndex_covered in Hidx. split.
      * intros Hin. by apply elem_of_nil in Hin.
      * by intros (fk' & _ & Hnc & _).
    + assert (¬ covered tbl (c_name c)) as Hnc.
      { intros Hcov. apply hasIndex_covered in Hcov. congruence. }
      simpl. rewrite list_elem_of_singleton. split.
      * intros ->. by exists fk.
      * by intros (fk' & [= <-] & _ & ->).
  - split.
    + intros Hin. by apply elem_of_nil in Hin.
    + by intros (fk & ? & _).
Qed.

(** A finding is reported exactly for the foreign-key columns of the
    dataset's tables that no index of their table starts with. *)
Lemma auditFkIndexes_elem objects f :
  f ∈ auditFkIndexes objects
  ↔ ∃ tbl cols c fk,
      tbl ∈ tables objects ∧ o_columns tbl = Some cols ∧ c ∈ cols
      ∧ c_fk c = Some fk ∧ ¬ covered tbl (c_name c) ∧ f = finding_for tbl c fk.
Proof.
  rewrite auditFkIndexes_bind, list_elem_of_bind. split.
  - intros (tbl & Hf & Htbl). apply list_elem_of_bind in Hf as (c & Hf & Hc).
    apply audit_column_elem in Hf as (fk & Hfk & Hnc & ->).
    destruct (o_columns tbl) as [cols|] eqn:Hcols; [|by apply elem_of_nil in Hc].
    by exists tbl, cols, c, fk.
  - intros (tbl & cols & c & fk & Htbl & Hcols & Hc & Hfk & Hnc & ->).
    exists tbl. split; [|done]. apply list_elem_of_bind. exists c.
    rewrite Hcols. split; [|done]. apply audit_column_elem. by exists fk.
Qed.

(** X3.  A diagram node carries the warning mark exactly when some table
    bearing the node's table name has a foreign-key column that no index of
    that table starts with.  The mark goes by table name: tables that share a
    name share it. *)
Theorem node_hasWarning_iff objects t :
  node_hasWarning objects t = true
  ↔ ∃ tbl cols c fk,
      tbl ∈ tables objects ∧ o_name tbl = o_name t
      ∧ o_columns tbl = Some cols ∧ c ∈ cols
      ∧ c_fk c = Some fk ∧ ¬ covered tbl (c_name c).
Proof.
  unfold node_hasWarning. rewrite existsb_exists. split.
  - intros (f & Hin & Hname). apply bool_decide_eq_true in Hname.
    apply list_elem_of_In, auditFkIndexes_elem in Hin
      as (tbl & cols & c & fk & Htbl & Hcols & Hc & Hfk & Hnc & ->).
    by exists tbl, cols, c, fk.
  - intros (tbl & cols & c & fk & Htbl & Hname & Hcols & Hc & Hfk & Hnc).
    exists (finding_for tbl c fk). split.
    + apply list_elem_of_In, auditFkIndexes_elem. by exists tbl, cols, c, fk.
    + by apply bool_decide_eq_true.
Qed.

(** X4.  In a table whose name no other table bears and whose column names
    are distinct, a column carries the "No Index" badge exactly when it has a
    foreign key and no index of the table starts with it. *)
Theorem column_hasWarning_iff objects obj cols c :
  obj ∈ tables objects →
  (∀ tbl, tbl ∈ tables objects → o_name tbl = o_name obj → tbl = obj) →
  o_columns obj = Some cols →
  NoDup (map c_name cols) →
  c ∈ cols →
  column_hasWarning objects obj c = true
  ↔ is_Some (c_fk c) ∧ ¬ covered obj (c_name c).
Proof.
  intros Hobj Huniq Hcols Hnodup Hc.
  unfold column_hasWarning. rewrite existsb_exists. split.
  - intros (f & Hin & Hmatch). apply andb_true_iff in Hmatch as [Htn Hcn].
    apply bool_decide_eq_true in Htn, Hcn.
    apply list_elem_of_In, auditFkIndexes_elem in Hin
      as (tbl & cols' & c' & fk & Htbl & Hcols' & Hc' & Hfk & Hnc & ->).
    simpl in Htn, Hcn. apply Huniq in Htn; [|done]. subst tbl.
    rewrite Hcols in Hcols'. injection Hcols' as <-.
    assert (c' = c) as ->.
    { apply list_elem_of_lookup in Hc as [i Hi], Hc' as [j Hj].
      assert (i = j) as ->; [|congruence].
      eapply NoDup_lookup; [exact Hnodup| |].
      - change (map c_name cols) with (c_name <$> cols).
        by rewrite list_lookup_fmap, Hi.
      - change (map c_name cols) with (c_name <$> cols).
        rewrite list_lookup_fmap, Hj. simpl. by rewrite Hcn. }
    split; [by eexists|done].
  - intros [[fk Hfk] Hnc]. exists (finding_for obj c fk). split.
    + apply list_elem_of_In, auditFkIndexes_elem. by exists obj, cols, c, fk.
    + simpl. apply andb_true_iff. split; by apply bool_decide_eq_true.
Qed.

Lemma column_hasWarning_iff_witness :
  column_hasWarning sample_objects sample_locations (fk_col "client_id" "clients")
  = true
  ↔ is_Some (c_fk (fk_col "client_id" "clients"))
    ∧ ¬ covered sample_locations "client_id".
Proof.
  apply (column_hasWarning_iff sample_objects sample_locations
           [col "id"; fk_col "client_id" "clients"; fk_col "region_id" "regions"]).
  - apply tables_elem. split; [reflexivity|]. right. by left.
  - intros tbl Hin Hname.
    change (tables sample_objects)
      with [sample_clients; sample_locations; sample_trees; sample_users] in Hin.
    repeat (apply elem_of_cons in Hin as [->|Hin]; [done|]).
    by apply elem_of_nil in Hin.
  - reflexivity.
  - by apply (bool_decide_unpack _).
  - right. by left.
Defined.

(** ** Positions and rendering *)

Lemma layout_from_keeps ts k : ∀ i (m : gmap string Pos),
  is_Some (m !! k) → is_Some (layout_from i m ts !! k).
Proof.
  induction ts as [|t ts IH]; intros i m Hm; simpl; [done|].
  apply IH. destruct (decide (o_key t = k)) as [->|Hne].
  - rewrite lookup_insert_eq. by eexists.
  - by rewrite lookup_insert_ne.
Qed.

Lemma layout_from_has ts t : ∀ i (m : gmap string Pos),
  t ∈ ts → is_Some (layout_from i m ts !! o_key t).
Proof.
  induction ts as [|a ts IH]; intros i m Hin; [by apply elem_of_nil in Hin|].
  simpl. apply elem_of_cons in Hin as [->|Hin]; [|by apply IH].
  apply layout_from_keeps. rewrite lookup_insert_eq. by eexists.
Qed.

(** The last table of a list that holds a given key. *)
Lemma last_with_key (ts : list SchemaObject) k :
  (∃ t, t ∈ ts ∧ o_key t = k) →
  ∃ i t, ts !! i = Some t ∧ o_key t = k
         ∧ ∀ j t', i < j → ts !! j = Some t' → o_key t' ≠ k.
Proof.
  induction ts as [|a ts IH]; intros (t & Hin & Hk); [by apply elem_of_nil in Hin|].
  destruct (decide (Exists (λ t', o_key t' = k) ts)) as [Hex|Hnex].
  - apply Exists_exists in Hex. destruct (IH Hex) as (i & t' & Hi & Hk' & Hlast).
    exists (S i), t'. split; [done|]. split; [done|].
    intros [|j] t'' Hlt Hj; [lia|]. apply (Hlast j); [lia|done].
  - apply elem_of_cons in Hin as [->|Hin].
    + exists 0, a. split; [done|]. split; [done|].
      intros [|j] t' Hlt Hj Hk'; [lia|]. apply Hnex, Exists_exists.
      exists t'. split; [|done]. apply list_elem_of_lookup. by exists j.
    + exfalso. apply Hnex, Exists_exists. by exists t.
Qed.

(** X5.  [nodePos.get(k)] is defined exactly for the keys of tables, and is
    the grid cell of the last table that holds the key: two tables that share
    a key share the later one's cell, and a key of no table has no
    position. *)
Theorem nodePos_get objects k :
  (∀ p, nodePos objects !! k = Some p
        ↔ ∃ i t, tables objects !! i = Some t ∧ o_key t = k ∧ p = grid_pos i
                 ∧ ∀ j t', i < j → tables objects !! j = Some t' → o_key t' ≠ k)
  ∧ (nodePos objects !! k = None ↔ ∀ t, t ∈ tables objects → o_key t ≠ k).
Proof.
  assert (∀ i t, tables objects !! i = Some t → o_key t = k →
            (∀ j t', i < j → tables objects !! j = Some t' → o_key t' ≠ k) →
            nodePos objects !! k = Some (grid_pos i)) as Hlast.
  { intros i t Hi <- Hlater. unfold nodePos.
    by rewrite (layout_from_lookup _ 0 ∅ i t Hi Hlater). }
  assert ((∀ t, t ∈ tables objects → o_key t ≠ k) → nodePos objects !! k = None)
    as Hnone.
  { intros Hno. unfold nodePos. by rewrite layout_from_other. }
  split.
  - intros p. split.
    + intros Hp.
      destruct (decide (Exists (λ t, o_key t = k) (tables objects))) as [Hex|Hnex].
      * apply Exists_exists, last_with_key in Hex as (i & t & Hi & Hk & Hlater).
        exists i, t. split; [done|]. split; [done|]. split; [|done].
        rewrite (Hlast i t Hi Hk Hlater) in Hp. congruence.
      * rewrite Hnone in Hp; [done|]. intros t Ht Hk.
        apply Hnex, Exists_exists. by exists t.
    + intros (i & t & Hi & Hk & -> & Hlater). by apply (Hlast i t).
  - split; [|apply Hnone]. intros Hk t Ht Heq.
    destruct (layout_from_has (tables objects) t 0 ∅ Ht) as [p Hp].
    unfold nodePos in Hk. congruence.
Qed.

Lemma edges_column_elem objects t c e :
  e ∈ edges_column objects t [] c
  ↔ ∃ fk target, c_fk c = Some fk ∧ find_table objects (fk_table fk) = Some target
                 ∧ e = {| e_from := o_key t; e_to := o_key target;
                          e_label := c_name c |}.
Proof.
  unfold edges_column. destruct (c_fk c) as [fk|].
  - destruct (find_table objects (fk_table fk)) as [target|] eqn:Hfind.
    + simpl. rewrite list_elem_of_singleton. split.
      * intros ->. by exists fk, target.
      * intros (fk' & target' & Hfk' & Hfind' & ->).
        injection Hfk' as <-. rewrite Hfind in Hfind'. by injection Hfind' as <-.
    + split; [intros Hin; by apply elem_of_nil in Hin|].
      intros (fk' & target' & Hfk' & Hfind' & _).
      injection Hfk' as <-. congruence.
  - split; [intros Hin; by apply elem_of_nil in Hin|].
    by intros (fk' & target' & ? & _).
Qed.

(** The edges are exactly the resolved foreign keys of the tables. *)
Lemma edges_elem objects e :
  e ∈ edges objects
  ↔ ∃ t cols c fk target,
      t ∈ tables objects ∧ o_columns t = Some cols ∧ c ∈ cols
      ∧ c_fk c = Some fk ∧ find_table objects (fk_table fk) = Some target
      ∧ e = {| e_from := o_key t; e_to := o_key target; e_label := c_name c |}.
Proof.
  rewrite edges_bind, list_elem_of_bind. split.
  - intros (t & He & Ht). apply list_elem_of_bind in He as (c & He & Hc).
    apply edges_column_elem in He as (fk & target & Hfk & Hfind & ->).
    destruct (o_columns t) as [cols|] eqn:Hcols; [|by apply elem_of_nil in Hc].
    by exists t, cols, c, fk, target.
  - intros (t & cols & c & fk & target & Ht & Hcols & Hc & Hfk & Hfind & ->).
    exists t. split; [|done]. apply list_elem_of_bind. exists c.
    rewrite Hcols. split; [|done]. apply edges_column_elem. by exists fk, target.
Qed.

(** Both ends of an edge are keys of tables. *)
Lemma edges_endpoints objects e :
  e ∈ edges objects →
  (∃ t, t ∈ tables objects ∧ o_key t = e_from e)
  ∧ (∃ t, t ∈ tables objects ∧ o_key t = e_to e).
Proof.
  intros He. apply edges_elem in He
    as (t & cols & c & fk & target & Ht & _ & _ & _ & Hfind & ->).
  apply find_table_Some in Hfind as [Htarget _]. split; eauto.
Qed.

Lemma omap_total {A B} (f : A → option B) (g : A → B) (l : list A) :
  (∀ a, a ∈ l → f a = Some (g a)) → omap f l = map g l.
Proof.
  induction l as [|a l IH]; intros Hf; [done|]. simpl.
  rewrite Hf by (by left). simpl. f_equal. apply IH.
  intros a' Ha'. apply Hf. by right.
Qed.

Lemma render_nodes_map objects st :
  render_nodes objects st
  = map (λ t, {| n_key := o_key t;
                 n_selected := bool_decide (st_selected st = Some (o_key t));
                 n_dim := false |}) (tables objects).
Proof.
  unfold render_nodes. apply omap_total. intros t Ht.
  destruct (layout_from_has (tables objects) t 0 ∅ Ht) as [p Hp].
  unfold nodePos. by rewrite Hp.
Qed.

Lemma render_lines_map objects :
  render_lines objects
  = map (λ e, {| l_from := e_from e; l_to := e_to e; l_highlight := false;
                 l_marker_end := "url(#arrow)"; l_opacity := "";
                 l_dim := false |}) (edges objects).
Proof.
  unfold render_lines. apply omap_total. intros e He.
  destruct (edges_endpoints objects e He) as [(t1 & Ht1 & Hk1) (t2 & Ht2 & Hk2)].
  destruct (layout_from_has (tables objects) t1 0 ∅ Ht1) as [p1 Hp1].
  destruct (layout_from_has (tables objects) t2 0 ∅ Ht2) as [p2 Hp2].
  unfold nodePos. rewrite <- Hk1, <- Hk2, Hp1, Hp2. done.
Qed.

(** X6.  [renderDiagram] skips nothing: every table has a position, and
    every edge runs between two tables, so the rebuilt viewport holds one node
    per table and one line per edge, in order; the two [continue] guards never
    fire. *)
Theorem render_complete objects st :
  render_nodes objects st
  = map (λ t, {| n_key := o_key t;
                 n_selected := bool_decide (st_selected st = Some (o_key t));
                 n_dim := false |}) (tables objects)
  ∧ render_lines objects
    = map (λ e, {| l_from := e_from e; l_to := e_to e; l_highlight := false;
                   l_marker_end := "url(#arrow)"; l_opacity := "";
                   l_dim := false |}) (edges objects).
Proof. split; [apply render_nodes_map|apply render_lines_map]. Qed.

(** X7.  Two different cells of the grid never overlap: the node rectangles
    ([NODE_W] wide, [NODE_H] high) placed at the positions of two different
    indices are apart horizontally or vertically, and every node lies within
    the six columns of the grid. *)
Theorem grid_pos_disjoint (i j : nat) :
  i ≠ j →
  ((x (grid_pos i) + NODE_W ≤ x (grid_pos j))%Z
   ∨ (x (grid_pos j) + NODE_W ≤ x (grid_pos i))%Z
   ∨ (y (grid_pos i) + NODE_H ≤ y (grid_pos j))%Z
   ∨ (y (grid_pos j) + NODE_H ≤ y (grid_pos i))%Z)
  ∧ (50 ≤ x (grid_pos i) ≤ 1250)%Z
  ∧ (50 ≤ y (grid_pos i))%Z.
Proof.
  intros Hij. unfold grid_pos, NODE_W, NODE_PAD, NODE_H, COL_COUNT, ROW_HEIGHT.
  simpl.
  pose proof (Z.div_mod (Z.of_nat i) 6 ltac:(lia)) as Hi.
  pose proof (Z.div_mod (Z.of_nat j) 6 ltac:(lia)) as Hj.
  pose proof (Z.mod_pos_bound (Z.of_nat i) 6 ltac:(lia)) as Bi.
  pose proof (Z.mod_pos_bound (Z.of_nat j) 6 ltac:(lia)) as Bj.
  pose proof (Z.div_pos (Z.of_nat i) 6 ltac:(lia) ltac:(lia)) as Di.
  lia.
Qed.

Lemma grid_pos_disjoint_witness :
  ((x (grid_pos 5) + NODE_W ≤ x (grid_pos 6))%Z
   ∨ (x (grid_pos 6) + NODE_W ≤ x (grid_pos 5))%Z
   ∨ (y (grid_pos 5) + NODE_H ≤ y (grid_pos 6))%Z
   ∨ (y (grid_pos 6) + NODE_H ≤ y (grid_pos 5))%Z)
  ∧ (50 ≤ x (grid_pos 5) ≤ 1250)%Z
  ∧ (50 ≤ y (grid_pos 5))%Z.
Proof. apply (grid_pos_disjoint 5 6). lia. Defined.

(** ** The passes over the diagram *)

Lemma applyIsolateMode_map es st d :
  applyIsolateMode es st d
  = {| dom_nodes := map (λ n, set_node_dim (node_dim es st (n_key n)) n) (dom_nodes d);
       dom_edges := map (λ l, set_line_dim (line_dim es st (l_from l) (l_to l)) l)
                        (dom_edges d) |}.
Proof.
  unfold applyIsolateMode, node_dim, line_dim.
  destruct (negb (st_isolateMode st) || negb (truthy_key (st_selected st)));
    [done|].
  by destruct (st_selected st).
Qed.

Lemma refresh_dom objects st d :
  w_dom (refresh objects st d)
  = {| dom_nodes := map (paint_node (edges objects) st) (dom_nodes d);
       dom_edges := map (paint_line (edges objects) st) (dom_edges d) |}.
Proof.
  unfold refresh. cbn [w_dom]. rewrite applyIsolateMode_map.
  unfold updateEdgeVisibility, updateNodeSelection. cbn [dom_nodes dom_edges].
  by rewrite !map_map.
Qed.

Lemma map_fixed {A} (f : A → A) (l : list A) :
  map f l = l ↔ Forall (λ a, f a = a) l.
Proof.
  induction l as [|a l IH]; simpl.
  - split; [constructor|done].
  - rewrite Forall_cons, <- IH. split.
    + by intros [= -> ->].
    + by intros [-> ->].
Qed.

Lemma in_sync_elements objects w :
  in_sync objects w
  ↔ Forall (λ n, paint_node (edges objects) (w_state w) n = n) (dom_nodes (w_dom w))
    ∧ Forall (λ l, paint_line (edges objects) (w_state w) l = l)
             (dom_edges (w_dom w)).
Proof.
  unfold in_sync. rewrite refresh_dom, <- !map_fixed.
  destruct (w_dom w) as [ns ls]. simpl. split.
  - by intros [= -> ->].
  - by intros [-> ->].
Qed.

Lemma paint_node_fixed es st n :
  paint_node es st n = n
  ↔ n_selected n = bool_decide (Some (n_key n) = st_selected st)
    ∧ n_dim n = node_dim es st (n_key n).
Proof.
  destruct n as [k sel dim]. unfold paint_node. simpl. split.
  - by intros [= <- <-].
  - by intros [-> ->].
Qed.

Lemma paint_line_fixed es st l :
  paint_line es st l = l
  ↔ l_highlight l = l_highlight (update_line st l)
    ∧ l_marker_end l = l_marker_end (update_line st l)
    ∧ l_opacity l = l_opacity (update_line st l)
    ∧ l_dim l = line_dim es st (l_from l) (l_to l).
Proof.
  destruct l as [from to hl marker opacity dim].
  unfold paint_line, set_line_dim, update_line. simpl. split.
  - intros [= Hhl Hm Ho Hd]. by rewrite <- Hd, <- Ho, <- Hm, <- Hhl at 1.
  - intros (-> & -> & -> & ->). done.
Qed.

(** The attributes that [update_line] writes are read off the selected key,
    the hovered key, the edge mode and the line's two ends. *)
Lemma update_line_ext st1 st2 l1 l2 :
  st_selected st1 = st_selected st2 → st_hovered st1 = st_hovered st2 →
  st_showEdges st1 = st_showEdges st2 →
  l_from l1 = l_from l2 → l_to l1 = l_to l2 →
  l_highlight (update_line st1 l1) = l_highlight (update_line st2 l2)
  ∧ l_marker_end (update_line st1 l1) = l_marker_end (update_line st2 l2)
  ∧ l_opacity (update_line st1 l1) = l_opacity (update_line st2 l2).
Proof.
  intros Hsel Hhov Hmode Hfrom Hto.
  unfold update_line, isHighlighted, activeKey. simpl.
  by rewrite Hsel, Hhov, Hmode, Hfrom, Hto.
Qed.

(** The dimming is read off the selected key and the isolate flag. *)
Lemma dim_ext es st1 st2 :
  st_selected st1 = st_selected st2 → st_isolateMode st1 = st_isolateMode st2 →
  (∀ k, node_dim es st1 k = node_dim es st2 k)
  ∧ (∀ from to, line_dim es st1 from to = line_dim es st2 from to).
Proof.
  intros Hsel Hiso. unfold node_dim, line_dim. by rewrite Hsel, Hiso.
Qed.

Lemma Forall_map_intro {A B} (P : B → Prop) (f : A → B) (l : list A) :
  Forall (λ a, P (f a)) l → Forall P (map f l).
Proof. induction 1; simpl; by constructor. Qed.

Lemma refresh_in_sync objects st d : in_sync objects (refresh objects st d).
Proof.
  apply in_sync_elements. rewrite refresh_dom. cbn [w_state refresh dom_nodes dom_edges].
  split; apply Forall_map_intro, Forall_forall; intros e _.
  - by apply paint_node_fixed.
  - by apply paint_line_fixed.
Qed.

Lemma edge_pass_in_sync objects w st' :
  in_sync objects w →
  st_selected st' = st_selected (w_state w) →
  st_isolateMode st' = st_isolateMode (w_state w) →
  in_sync objects {| w_state := st'; w_dom := updateEdgeVisibility st' (w_dom w) |}.
Proof.
  intros Hsync Hsel Hiso. apply in_sync_elements in Hsync as [Hnodes Hlines].
  destruct (dim_ext (edges objects) st' (w_state w) Hsel Hiso) as [Hnd Hld].
  apply in_sync_elements. cbn [w_state w_dom updateEdgeVisibility dom_nodes dom_edges].
  split.
  - eapply Forall_impl; [exact Hnodes|]. intros n Hn. simpl in Hn.
    apply paint_node_fixed in Hn as [Hs Hd]. apply paint_node_fixed.
    by rewrite Hsel, Hnd.
  - apply Forall_map_intro. eapply Forall_impl; [exact Hlines|].
    intros l Hl. simpl in Hl. apply paint_line_fixed in Hl as (_ & _ & _ & Hd).
    apply paint_line_fixed. repeat split; try done. simpl. by rewrite Hld.
Qed.

Lemma isolate_pass_in_sync objects w st' :
  in_sync objects w →
  st_selected st' = st_selected (w_state w) →
  st_hovered st' = st_hovered (w_state w) →
  st_showEdges st' = st_showEdges (w_state w) →
  in_sync objects
    {| w_state := st'; w_dom := applyIsolateMode (edges objects) st' (w_dom w) |}.
Proof.
  intros Hsync Hsel Hhov Hmode. apply in_sync_elements in Hsync as [Hnodes Hlines].
  apply in_sync_elements. cbn [w_state w_dom]. rewrite applyIsolateMode_map.
  cbn [dom_nodes dom_edges]. split; apply Forall_map_intro.
  - eapply Forall_impl; [exact Hnodes|]. intros n Hn. simpl in Hn.
    apply paint_node_fixed in Hn as [Hs _]. apply paint_node_fixed.
    simpl. by rewrite Hsel.
  - eapply Forall_impl; [exact Hlines|]. intros l Hl. simpl in Hl.
    apply paint_line_fixed in Hl as (Hh & Hm & Ho & _).
    destruct (update_line_ext st' (w_state w)
                (set_line_dim (line_dim (edges objects) st' (l_from l) (l_to l)) l)
                l Hsel Hhov Hmode eq_refl eq_refl) as (Eh & Em & Eo).
    apply paint_line_fixed. rewrite Eh, Em, Eo. by repeat split.
Qed.

Lemma renderDiagram_in_sync objects st :
  in_sync objects {| w_state := st; w_dom := renderDiagram objects st |}.
Proof.
  apply in_sync_elements. cbn [w_state w_dom]. unfold renderDiagram.
  rewrite applyIsolateMode_map. cbn [updateEdgeVisibility dom_nodes dom_edges].
  rewrite render_nodes_map, render_lines_map.
  split; repeat apply Forall_map_intro; apply Forall_forall; intros e _.
  - apply paint_node_fixed. simpl. split; [|done].
    apply bool_decide_ext. split; congruence.
  - by apply paint_line_fixed.
Qed.

Lemma setView_in_sync objects view w :
  in_sync objects w → in_sync objects (setView objects view w).
Proof.
  intros Hsync. unfold setView. case_bool_decide.
  - apply renderDiagram_in_sync.
  - exact Hsync.
Qed.

Lemma onKeydown_in_sync objects key w :
  in_sync objects w → in_sync objects (onKeydown objects key w).
Proof.
  intros Hsync. unfold onKeydown.
  repeat (case_bool_decide; try apply setView_in_sync);
    try apply refresh_in_sync; done.
Qed.

Lemma handle_in_sync objects w ev :
  in_sync objects w → in_sync objects (handle objects w ev).
Proof.
  intros Hsync. destruct ev; simpl.
  - apply refresh_in_sync.
  - by apply edge_pass_in_sync.
  - by apply edge_pass_in_sync.
  - by apply edge_pass_in_sync.
  - by apply isolate_pass_in_sync.
  - by apply setView_in_sync.
  - by apply onKeydown_in_sync.
Qed.

Lemma updateEdgeVisibility_graph objects st d :
  shows_graph objects d → shows_graph objects (updateEdgeVisibility st d).
Proof.
  intros [Hn Hl]. split; [done|]. simpl. by rewrite map_map.
Qed.

Lemma applyIsolateMode_graph objects es st d :
  shows_graph objects d → shows_graph objects (applyIsolateMode es st d).
Proof.
  intros [Hn Hl]. rewrite applyIsolateMode_map. split; simpl; by rewrite map_map.
Qed.

Lemma updateNodeSelection_graph objects st d :
  shows_graph objects d → shows_graph objects (updateNodeSelection st d).
Proof.
  intros [Hn Hl]. split; [|done]. simpl. by rewrite map_map.
Qed.

Lemma refresh_graph objects st d :
  shows_graph objects d → shows_graph objects (w_dom (refresh objects st d)).
Proof.
  intros Hg. unfold refresh. cbn [w_dom].
  by apply applyIsolateMode_graph, updateEdgeVisibility_graph,
    updateNodeSelection_graph.
Qed.

Lemma renderDiagram_graph objects st : shows_graph objects (renderDiagram objects st).
Proof.
  unfold renderDiagram. apply applyIsolateMode_graph, updateEdgeVisibility_graph.
  split; simpl.
  - by rewrite render_nodes_map, map_map.
  - by rewrite render_lines_map, map_map.
Qed.

Lemma setView_graph objects view w :
  shows_graph objects (w_dom w) → shows_graph objects (w_dom (setView objects view w)).
Proof.
  intros Hg. unfold setView. cbn [w_dom]. case_bool_decide; [|done].
  apply renderDiagram_graph.
Qed.

Lemma handle_graph objects w ev :
  shows_graph objects (w_dom w) → shows_graph objects (w_dom (handle objects w ev)).
Proof.
  intros Hg. destruct ev; simpl.
  - by apply refresh_graph.
  - by apply updateEdgeVisibility_graph.
  - by apply updateEdgeVisibility_graph.
  - by apply updateEdgeVisibility_graph.
  - by apply applyIsolateMode_graph.
  - by apply setView_graph.
  - unfold onKeydown.
    repeat (case_bool_decide; try apply setView_graph);
      try apply refresh_graph; done.
Qed.

Lemma run_invariant objects evs :
  in_sync objects (run objects evs)
  ∧ shows_graph objects (w_dom (run objects evs)).
Proof.
  unfold run.
  assert (in_sync objects (init_world objects)
          ∧ shows_graph objects (w_dom (init_world objects))) as Hinit.
  { split; [apply renderDiagram_in_sync|apply renderDiagram_graph]. }
  revert Hinit. generalize (init_world objects).
  induction evs as [|ev evs IH]; intros w [Hsync Hgraph]; [done|].
  simpl. apply IH. split; [by apply handle_in_sync|by apply handle_graph].
Qed.

(** X8.  Whatever the user does, the diagram stays in step with the state:
    after any sequence of clicks, pointer moves, edge-button presses, isolate
    changes, tab clicks and key presses, the diagram holds one node per table
    and one line per edge, in dataset order, and running the passes of
    [selectObject] once more would change no class and no attribute of any
    element. *)
Theorem run_in_sync objects evs :
  in_sync objects (run objects evs)
  ∧ shows_graph objects (w_dom (run objects evs)).
Proof. apply run_invariant. Qed.

Lemma line_of_edge objects d l :
  shows_graph objects d → l ∈ dom_edges d →
  ∃ e, e ∈ edges objects ∧ e_from e = l_from l ∧ e_to e = l_to l.
Proof.
  intros [_ Hl] Hin.
  assert ((l_from l, l_to l) ∈ map (λ e, (e_from e, e_to e)) (edges objects)) as He.
  { rewrite <- Hl. apply list_elem_of_In, in_map_iff. exists l.
    split; [done|by apply list_elem_of_In]. }
  apply list_elem_of_In, in_map_iff in He as (e & [= Hf Ht] & He).
  exists e. split; [by apply list_elem_of_In|done].
Qed.

Lemma node_of_table objects d n :
  shows_graph objects d → n ∈ dom_nodes d →
  ∃ t, t ∈ tables objects ∧ o_key t = n_key n.
Proof.
  intros [Hn _] Hin.
  assert (n_key n ∈ map o_key (tables objects)) as Ht.
  { rewrite <- Hn. apply list_elem_of_In, in_map_iff. exists n.
    split; [done|by apply list_elem_of_In]. }
  apply list_elem_of_In, in_map_iff in Ht as (t & Hk & Ht).
  exists t. split; [by apply list_elem_of_In|done].
Qed.

(** X9.  At every moment of a session: a node carries the selected mark
    exactly when its key is the selected key; the node of the selected key is
    not dimmed; and no highlighted line is dimmed. *)
Theorem run_selected_visible objects evs :
  let w := run objects evs in
  (∀ n, n ∈ dom_nodes (w_dom w) →
     (n_selected n = true ↔ st_selected (w_state w) = Some (n_key n))
     ∧ (st_selected (w_state w) = Some (n_key n) → n_dim n = false))
  ∧ (∀ l, l ∈ dom_edges (w_dom w) → l_highlight l = true → l_dim l = false).
Proof.
  intros w. destruct (run_invariant objects evs) as [Hsync Hgraph].
  fold w in Hsync, Hgraph. apply in_sync_elements in Hsync as [Hnodes Hlines].
  rewrite Forall_forall in Hnodes. rewrite Forall_forall in Hlines. split.
  - intros n Hn. apply Hnodes, paint_node_fixed in Hn as [Hs Hd]. split.
    + rewrite Hs, bool_decide_eq_true. split; congruence.
    + intros Hsel. rewrite Hd. unfold node_dim. rewrite Hsel.
      destruct (negb _ || negb _); [done|].
      rewrite bool_decide_eq_true_2; [done|]. apply getNeighborKeys_elem. by left.
  - intros l Hl Hhl.
    destruct (line_of_edge objects _ l Hgraph Hl) as (e & He & Hfrom & Hto).
    apply Hlines, paint_line_fixed in Hl as (Hh & _ & _ & Hd).
    rewrite Hd. unfold line_dim.
    destruct (st_isolateMode (w_state w)); [|done]. simpl.
    destruct (truthy_key (st_selected (w_state w))) eqn:Htr; [|done]. simpl.
    rewrite Hh in Hhl. simpl in Hhl.
    apply isHighlighted_iff in Hhl as (k & Hk & _ & Hend).
    unfold activeKey in Hk. rewrite Htr in Hk. rewrite Hk.
    rewrite !bool_decide_eq_true_2; [done| |];
      apply getNeighborKeys_elem; destruct Hend as [<-|<-];
      try (by left); right; exists e; split; try done; tauto.
Qed.

(** X10.  With isolate mode on, selecting an object that is not a table (an
    enum, a view, a function or a trigger chosen in the sidebar) dims every
    node and every line of the diagram. *)
Theorem run_isolate_non_table objects evs k :
  st_isolateMode (w_state (run objects evs)) = true →
  st_selected (w_state (run objects evs)) = Some k →
  k ≠ "" →
  (∀ t, t ∈ tables objects → o_key t ≠ k) →
  Forall (λ n, n_dim n = true) (dom_nodes (w_dom (run objects evs)))
  ∧ Forall (λ l, l_dim l = true) (dom_edges (w_dom (run objects evs))).
Proof.
  intros Hiso Hsel Hk Hnot.
  destruct (run_invariant objects evs) as [Hsync Hgraph].
  apply in_sync_elements in Hsync as [Hnodes Hlines].
  rewrite Forall_forall in Hnodes. rewrite Forall_forall in Hlines.
  assert (∀ k', (∃ t, t ∈ tables objects ∧ o_key t = k') →
            k' ∉ getNeighborKeys (edges objects) k) as Hout.
  { intros k' (t & Ht & Hkt) Hin. apply getNeighborKeys_elem in Hin as [->|Hin].
    - by apply (Hnot t).
    - destruct Hin as (e & He & Hend).
      destruct (edges_endpoints objects e He) as [(t1 & Ht1 & Hk1) (t2 & Ht2 & Hk2)].
      destruct Hend as [[Hf _]|[Hto _]].
      + apply (Hnot t1 Ht1). congruence.
      + apply (Hnot t2 Ht2). congruence. }
  apply String.eqb_neq in Hk.
  split; apply Forall_forall.
  - intros n Hn. destruct (node_of_table objects _ n Hgraph Hn) as (t & Ht & Hkt).
    apply Hnodes, paint_node_fixed in Hn as [_ Hd]. rewrite Hd.
    unfold node_dim. rewrite Hiso, Hsel. simpl. rewrite Hk. simpl.
    rewrite bool_decide_eq_false_2; [done|]. apply Hout. by exists t.
  - intros l Hl.
    destruct (line_of_edge objects _ l Hgraph Hl) as (e & He & Hfrom & Hto).
    destruct (edges_endpoints objects e He) as [(t1 & Ht1 & Hk1) _].
    apply Hlines, paint_line_fixed in Hl as (_ & _ & _ & Hd). rewrite Hd.
    unfold line_dim. rewrite Hiso, Hsel. simpl. rewrite Hk. simpl.
    rewrite (bool_decide_eq_false_2 (l_from l ∈ _)); [done|].
    apply Hout. exists t1. split; [done|congruence].
Qed.

Lemma run_isolate_non_table_witness :
  Forall (λ n, n_dim n = true)
    (dom_nodes (w_dom (run sample_objects
                         [IsolateChange true; ClickObject "enum_status"])))
  ∧ Forall (λ l, l_dim l = true)
      (dom_edges (w_dom (run sample_objects
                           [IsolateChange true; ClickObject "enum_status"]))).
Proof.
  apply (run_isolate_non_table sample_objects
           [IsolateChange true; ClickObject "enum_status"] "enum_status").
  - reflexivity.
  - reflexivity.
  - discriminate.
  - intros t Ht.
    change (tables sample_objects)
      with [sample_clients; sample_locations; sample_trees; sample_users] in Ht.
    repeat (apply elem_of_cons in Ht as [->|Ht]; [discriminate|]).
    by apply elem_of_nil in Ht.
Defined.

Lemma update_line_hover st key l :
  truthy_key (st_selected st) = true →
  update_line (set_hovered key st) l = update_line st l.
Proof.
  intros Htr. unfold update_line, isHighlighted, activeKey. simpl. by rewrite Htr.
Qed.

Lemma update_line_fixed es st l :
  paint_line es st l = l → update_line st l = l.
Proof.
  intros Hl. apply paint_line_fixed in Hl as (Hh & Hm & Ho & _).
  destruct l as [from to hl marker opacity dim]. simpl in *.
  unfold update_line. simpl. by rewrite Hh, Hm, Ho.
Qed.

(** X11.  While an object is selected, moving the pointer over the diagram
    changes nothing in it: at any moment of a session at which the selected
    key is a non-empty string, [hoverObject] leaves every node and every line
    as it is, and keeps the selection. *)
Theorem run_hover_while_selected objects evs key :
  truthy_key (st_selected (w_state (run objects evs))) = true →
  w_dom (hoverObject key (run objects evs)) = w_dom (run objects evs)
  ∧ st_selected (w_state (hoverObject key (run objects evs)))
    = st_selected (w_state (run objects evs)).
Proof.
  intros Htr. split; [|done].
  destruct (run_invariant objects evs) as [Hsync _].
  apply in_sync_elements in Hsync as [_ Hlines].
  unfold hoverObject, updateEdgeVisibility. cbn [w_dom].
  destruct (w_dom (run objects evs)) as [ns ls]. cbn [dom_nodes dom_edges] in *.
  f_equal. apply map_fixed. eapply Forall_impl; [exact Hlines|].
  intros l Hl. simpl in Hl. rewrite update_line_hover by done.
  by apply (update_line_fixed (edges objects)).
Qed.

Lemma run_hover_while_selected_witness :
  w_dom (hoverObject (Some "table_users")
           (run sample_objects [ClickObject "table_locations"]))
  = w_dom (run sample_objects [ClickObject "table_locations"])
  ∧ st_selected (w_state (hoverObject (Some "table_users")
                            (run sample_objects [ClickObject "table_locations"])))
    = st_selected (w_state (run sample_objects [ClickObject "table_locations"])).
Proof.
  apply (run_hover_while_selected sample_objects [ClickObject "table_locations"]).
  reflexivity.
Defined.

Lemma handle_showEdges objects w ev :
  st_showEdges (w_state w) ∈ ["focus"; "all"; "off"] →
  st_showEdges (w_state (handle objects w ev)) ∈ ["focus"; "all"; "off"].
Proof.
  intros Hmode. destruct ev; simpl; try done.
  - apply list_elem_of_In. simpl. repeat case_bool_decide; tauto.
  - unfold onKeydown, setView. by repeat case_bool_decide.
Qed.

Lemma run_showEdges objects evs :
  st_showEdges (w_state (run objects evs)) ∈ ["focus"; "all"; "off"].
Proof.
  unfold run.
  assert (st_showEdges (w_state (init_world objects)) ∈ ["focus"; "all"; "off"])
    as Hinit by (by left).
  revert Hinit. generalize (init_world objects).
  induction evs as [|ev evs IH]; intros w Hmode; [done|].
  simpl. by apply IH, handle_showEdges.
Qed.

Lemma cycleEdgeMode_thrice_fixed objects evs :
  cycleEdgeMode (cycleEdgeMode (cycleEdgeMode (run objects evs)))
  = run objects evs.
Proof.
  destruct (run_invariant objects evs) as [Hsync _].
  pose proof (run_showEdges objects evs) as Hmode.
  apply in_sync_elements in Hsync as [_ Hlines].
  destruct (run objects evs) as [st [ns ls]]. cbn [w_state w_dom dom_edges] in *.
  assert (map (update_line st) ls = ls) as Hfix.
  { apply map_fixed. eapply Forall_impl; [exact Hlines|].
    intros l Hl. by apply (update_line_fixed (edges objects)). }
  destruct st as [view flt tf df sel hov mode iso zoom pan].
  cbn [st_showEdges] in Hmode.
  unfold cycleEdgeMode, updateEdgeVisibility, set_showEdges.
  cbn [w_state w_dom dom_nodes dom_edges st_showEdges st_view st_filter
       st_typeFilter st_domainFilter st_selected st_hovered st_isolateMode
       st_zoom st_pan].
  rewrite !map_map.
  repeat (apply elem_of_cons in Hmode as [->|Hmode]);
    [ | | | by apply elem_of_nil in Hmode];
    cbn [bool_decide decide_rel]; simpl bool_decide;
    (f_equal; f_equal; rewrite <- Hfix at 2; apply map_ext; intros l;
     by destruct l).
Qed.

Lemma cycleEdgeMode_showEdges w :
  st_showEdges (w_state (cycleEdgeMode w))
  = if bool_decide (st_showEdges (w_state w) = "focus") then "all"
    else if bool_decide (st_showEdges (w_state w) = "all") then "off"
    else "focus".
Proof. by destruct w as [[] ?]. Qed.

(** X12.  At any moment of a session the edge mode is one of focus, all and
    off, and one press of the edge button moves it one step along
    focus, all, off, focus: from focus to all, from all to off, from off to
    focus.  One press changes nothing of the state but the edge mode, and it
    changes no node.  Three presses bring back the very same page: the edge
    mode returns to where it was and every line gets back its marker and
    opacity. *)
Theorem run_cycleEdgeMode_thrice objects evs :
  let w := run objects evs in
  let mode (w : World) := st_showEdges (w_state w) in
  (mode w = "focus" ∨ mode w = "all" ∨ mode w = "off")
  ∧ (mode w = "focus" → mode (cycleEdgeMode w) = "all")
  ∧ (mode w = "all" → mode (cycleEdgeMode w) = "off")
  ∧ (mode w = "off" → mode (cycleEdgeMode w) = "focus")
  ∧ w_state (cycleEdgeMode w)
    = set_showEdges (mode (cycleEdgeMode w)) (w_state w)
  ∧ dom_nodes (w_dom (cycleEdgeMode w)) = dom_nodes (w_dom w)
  ∧ cycleEdgeMode (cycleEdgeMode (cycleEdgeMode w)) = w.
Proof.
  cbv zeta. split; [|split; [|split; [|split; [|split; [|split]]]]].
  - pose proof (run_showEdges objects evs) as Hmode.
    repeat (apply elem_of_cons in Hmode as [Hmode|Hmode]); auto.
    by apply elem_of_nil in Hmode.
  - intros H. rewrite cycleEdgeMode_showEdges, H. reflexivity.
  - intros H. rewrite cycleEdgeMode_showEdges, H. reflexivity.
  - intros H. rewrite cycleEdgeMode_showEdges, H. reflexivity.
  - by destruct (run objects evs) as [[] ?].
  - by destruct (run objects evs) as [? []].
  - apply cycleEdgeMode_thrice_fixed.
Qed.

(** A session on the sample dataset: the page opens in mode focus, and the
    presses of the edge button lead to all, off and focus again. *)
Lemma run_cycleEdgeMode_thrice_witness :
  st_showEdges (w_state (run sample_objects [])) = "focus"
  ∧ st_showEdges (w_state (run sample_objects [ToggleEdges])) = "all"
  ∧ st_showEdges (w_state (run sample_objects [ToggleEdges; ToggleEdges])) = "off"
  ∧ st_showEdges
      (w_state (run sample_objects [ToggleEdges; ToggleEdges; ToggleEdges]))
    = "focus".
Proof.
  destruct (run_cycleEdgeMode_thrice sample_objects []) as (_ & H1 & _).
  destruct (run_cycleEdgeMode_thrice sample_objects [ToggleEdges])
    as (_ & _ & H2 & _).
  destruct (run_cycleEdgeMode_thrice sample_objects [ToggleEdges; ToggleEdges])
    as (_ & _ & _ & H3 & _).
  split; [reflexivity|]. split; [|split].
  - apply H1. reflexivity.
  - apply H2. reflexivity.
  - apply H3. reflexivity.
Defined.

(** X13.  The Escape key clears the diagram whatever it showed: afterwards
    no node is marked selected or dimmed, and no line is highlighted or
    dimmed; every line has the plain arrow head, and its opacity is ["0.4"] in
    mode [all] and ["0"] in any other mode. *)
Theorem onKeydown_Escape_clears objects w :
  let w' := onKeydown objects "Escape" w in
  Forall (λ n, n_selected n = false ∧ n_dim n = false) (dom_nodes (w_dom w'))
  ∧ Forall (λ l, l_highlight l = false ∧ l_dim l = false
                 ∧ l_marker_end l = "url(#arrow)"
                 ∧ l_opacity l
                   = if bool_decide (st_showEdges (w_state w) = "all")
                     then "0.4" else "0")
           (dom_edges (w_dom w'))
  ∧ map n_key (dom_nodes (w_dom w')) = map n_key (dom_nodes (w_dom w))
  ∧ map (λ l, (l_from l, l_to l)) (dom_edges (w_dom w'))
    = map (λ l, (l_from l, l_to l)) (dom_edges (w_dom w)).
Proof.
  intros w'. subst w'.
  change (onKeydown objects "Escape" w)
    with (refresh objects (set_hovered None (set_selected None (w_state w)))
            (w_dom w)).
  rewrite refresh_dom. cbn [dom_nodes dom_edges].
  split; [|split; [|split]].
  - apply Forall_map_intro, Forall_forall. intros n _.
    unfold paint_node, node_dim. simpl. by rewrite orb_true_r.
  - apply Forall_map_intro, Forall_forall. intros l _.
    unfold paint_line, update_line, isHighlighted, activeKey, line_dim. simpl.
    rewrite orb_true_r. repeat split; try done.
    repeat case_bool_decide; congruence.
  - by rewrite map_map.
  - by rewrite map_map.
Qed.

(** X14.  The two passes over the diagram do not interfere: the edge pass
    and the isolate pass can run in either order with the same result, also
    when they read different states, and running either of them twice is the
    same as running it once. *)
Theorem passes_commute es st1 st2 d :
  applyIsolateMode es st2 (updateEdgeVisibility st1 d)
  = updateEdgeVisibility st1 (applyIsolateMode es st2 d)
  ∧ updateEdgeVisibility st1 (updateEdgeVisibility st1 d)
    = updateEdgeVisibility st1 d
  ∧ applyIsolateMode es st2 (applyIsolateMode es st2 d)
    = applyIsolateMode es st2 d.
Proof.
  rewrite !applyIsolateMode_map. unfold updateEdgeVisibility.
  cbn [dom_nodes dom_edges]. rewrite !map_map. split; [|split]; f_equal.
Qed.

(** X15.  The first paint: on load the diagram holds one node per table, none
    selected and none dimmed, and one line per edge, none highlighted or
    dimmed, each with the plain arrow head and opacity ["0"]: in the initial
    focus mode no edge is visible until a node is hovered or selected. *)
Theorem init_world_paint objects :
  dom_nodes (w_dom (init_world objects))
  = map (λ t, {| n_key := o_key t; n_selected := false; n_dim := false |})
        (tables objects)
  ∧ dom_edges (w_dom (init_world objects))
    = map (λ e, {| l_from := e_from e; l_to := e_to e; l_highlight := false;
                   l_marker_end := "url(#arrow)"; l_opacity := "0";
                   l_dim := false |}) (edges objects).
Proof.
  unfold init_world, renderDiagram. cbn [w_dom].
  rewrite applyIsolateMode_map. cbn [updateEdgeVisibility dom_nodes dom_edges].
  rewrite render_nodes_map, render_lines_map, !map_map. done.
Qed.

(** ** Escaping *)

#[local] Arguments String.append : simpl nomatch.

Lemma append_assoc_str (s1 s2 s3 : string) :
  (s1 +:+ s2) +:+ s3 = s1 +:+ (s2 +:+ s3).
Proof. induction s1 as [|a s1 IH]; simpl; [done|]. by rewrite IH. Qed.

Lemma replace_char_append c by_ (s1 s2 : string) :
  replace_char c by_ (s1 +:+ s2)
  = replace_char c by_ s1 +:+ replace_char c by_ s2.
Proof.
  induction s1 as [|a s1 IH]; simpl; [done|].
  destruct (Ascii.eqb a c); rewrite IH; [by rewrite append_assoc_str|done].
Qed.

Lemma escapeHtml_cons a rest :
  escapeHtml (String a rest) = escape_char a +:+ escapeHtml rest.
Proof.
  unfold escapeHtml, escape_char. cbn [replace_char].
  destruct (Ascii.eqb a "&") eqn:Eamp.
  - by rewrite !replace_char_append.
  - cbn [replace_char]. destruct (Ascii.eqb a "<") eqn:Elt.
    + by rewrite !replace_char_append.
    + cbn [replace_char]. by destruct (Ascii.eqb a ">").
Qed.

Lemma escapeHtml_each str : escapeHtml str = escape_each str.
Proof.
  induction str as [|a rest IH]; [done|]. by rewrite escapeHtml_cons, IH.
Qed.

Lemma occurs_append c (s1 s2 : string) :
  occurs c (s1 +:+ s2) = occurs c s1 || occurs c s2.
Proof.
  induction s1 as [|a s1 IH]; simpl; [done|]. by rewrite IH, orb_assoc.
Qed.

Lemma escape_char_no_angle a :
  occurs "<" (escape_char a) = false ∧ occurs ">" (escape_char a) = false.
Proof.
  unfold escape_char.
  destruct (Ascii.eqb a "&") eqn:Eamp; [done|].
  destruct (Ascii.eqb a "<") eqn:Elt; [done|].
  destruct (Ascii.eqb a ">") eqn:Egt; [done|].
  simpl. by rewrite Elt, Egt.
Qed.

(** X16.  The three replacements of [escapeHtml] amount to one pass that
    turns each ampersand into [&amp;], each [<] into [&lt;] and each [>] into
    [&gt;] and keeps every other character: no replacement touches the output
    of an earlier one.  The result holds no [<] and no [>]. *)
Theorem escapeHtml_single_pass str :
  escapeHtml str = escape_each str
  ∧ occurs "<" (escapeHtml str) = false
  ∧ occurs ">" (escapeHtml str) = false.
Proof.
  split; [apply escapeHtml_each|]. rewrite escapeHtml_each.
  induction str as [|a rest [IHlt IHgt]]; [done|].
  simpl. rewrite !occurs_append, IHlt, IHgt.
  destruct (escape_char_no_angle a) as [-> ->]. done.
Qed.

Lemma escape_char_head a :
  ∃ c tail, escape_char a = String c tail
            ∧ (tail = "" → c = a)
            ∧ (tail ≠ "" → c = "&"%char).
Proof.
  unfold escape_char.
  destruct (Ascii.eqb a "&") eqn:Eamp; [by eexists _, _|].
  destruct (Ascii.eqb a "<") eqn:Elt; [by eexists _, _|].
  destruct (Ascii.eqb a ">") eqn:Egt; [by eexists _, _|].
  by eexists _, _.
Qed.

Lemma escape_each_inj s1 : ∀ s2, escape_each s1 = escape_each s2 → s1 = s2.
Proof.
  induction s1 as [|a1 r1 IH]; intros [|a2 r2] Heq; try done.
  - cbn [escape_each] in Heq.
    destruct (escape_char_head a2) as (c & tail & Hc & _).
    rewrite Hc in Heq. simpl in Heq. done.
  - cbn [escape_each] in Heq.
    destruct (escape_char_head a1) as (c & tail & Hc & _).
    rewrite Hc in Heq. simpl in Heq. done.
  - simpl in Heq. unfold escape_char in Heq.
    destruct (Ascii.eqb a1 "&") eqn:E1; destruct (Ascii.eqb a2 "&") eqn:E2;
      [ | destruct (Ascii.eqb a2 "<") eqn:F2; [|destruct (Ascii.eqb a2 ">") eqn:G2]
        | destruct (Ascii.eqb a1 "<") eqn:F1; [|destruct (Ascii.eqb a1 ">") eqn:G1]
        | destruct (Ascii.eqb a1 "<") eqn:F1;
          [|destruct (Ascii.eqb a1 ">") eqn:G1];
          (destruct (Ascii.eqb a2 "<") eqn:F2;
           [|destruct (Ascii.eqb a2 ">") eqn:G2]) ];
      simpl in Heq; try discriminate;
      repeat match goal with
             | H : Ascii.eqb _ _ = true |- _ => apply Ascii.eqb_eq in H; subst
             end;
      try (injection Heq as Heq; f_equal; by apply IH);
      try (injection Heq as Ha Heq; subst;
           first [ by rewrite Ascii.eqb_refl in * | f_equal; by apply IH ]).
Qed.

(** X17.  [escapeHtml] loses nothing: two texts escape to the same text
    exactly when they are the same text. *)
Theorem escapeHtml_inj s1 s2 : escapeHtml s1 = escapeHtml s2 ↔ s1 = s2.
Proof.
  split; [|by intros ->]. rewrite !escapeHtml_each. apply escape_each_inj.
Qed.

Lemma length_append_str (s1 s2 : string) :
  String.length (s1 +:+ s2) = (String.length s1 + String.length s2)%nat.
Proof. induction s1 as [|a s1 IH]; simpl; [done|]. by rewrite IH. Qed.

Lemma escape_each_length str :
  (String.length str ≤ String.length (escape_each str))%nat.
Proof.
  induction str as [|a rest IH]; simpl; [done|].
  rewrite length_append_str. destruct (escape_char_head a) as (c & tail & -> & _).
  simpl. lia.
Qed.

(** X18.  [escapeHtml] returns its argument unchanged exactly when the
    argument holds none of the three characters [&], [<] and [>]; quotation
    marks, in particular, are never escaped. *)
Theorem escapeHtml_unchanged str :
  escapeHtml str = str
  ↔ occurs "&" str = false ∧ occurs "<" str = false ∧ occurs ">" str = false.
Proof.
  rewrite escapeHtml_each. induction str as [|a rest IH]; [done|].
  simpl. unfold escape_char.
  destruct (Ascii.eqb a "&") eqn:Eamp; [|destruct (Ascii.eqb a "<") eqn:Elt;
    [|destruct (Ascii.eqb a ">") eqn:Egt]]; simpl.
  - split; [|by intros [? _]]. intros [= _ Hrest].
    pose proof (escape_each_length rest) as Hlen.
    rewrite <- Hrest in Hlen at 1. simpl in Hlen. lia.
  - split; [|by intros (_ & ? & _)]. intros [= _ Hrest].
    pose proof (escape_each_length rest) as Hlen.
    rewrite <- Hrest in Hlen at 1. simpl in Hlen. lia.
  - split; [|by intros (_ & _ & ?)]. intros [= _ Hrest].
    pose proof (escape_each_length rest) as Hlen.
    rewrite <- Hrest in Hlen at 1. simpl in Hlen. lia.
  - rewrite <- IH. split; [by intros [= ->]|by intros ->].
Qed.

(** ** Incoming references and neighbours *)

Lemma incoming_column_elem tableName tbl c r :
  r ∈ incoming_column tableName tbl [] c
  ↔ ∃ fk, c_fk c = Some fk ∧ fk_table fk = tableName
          ∧ r = (o_name tbl, c_name c).
Proof.
  unfold incoming_column. destruct (c_fk c) as [fk|].
  - case_bool_decide as Hnm; simpl.
    + rewrite list_elem_of_singleton. split.
      * intros ->. by exists fk.
      * by intros (fk' & _ & _ & ->).
    + split; [intros Hin; by apply elem_of_nil in Hin|].
      intros (fk' & [= <-] & Hnm' & _). done.
  - split; [intros Hin; by apply elem_of_nil in Hin|].
    by intros (fk & ? & _).
Qed.

(** X19.  The "Referenced By" list of a table name holds exactly the pairs
    (table name, column name) of the foreign-key columns that name it, the
    table's own columns included, and whether or not a table of that name
    exists; it is empty exactly when no foreign key names it. *)
Theorem findIncomingReferences_elem objects tableName :
  (∀ r, r ∈ findIncomingReferences objects tableName
        ↔ ∃ tbl cols c fk,
            tbl ∈ tables objects ∧ o_columns tbl = Some cols ∧ c ∈ cols
            ∧ c_fk c = Some fk ∧ fk_table fk = tableName
            ∧ r = (o_name tbl, c_name c))
  ∧ (findIncomingReferences objects tableName = []
     ↔ ∀ tbl cols c fk,
         tbl ∈ tables objects → o_columns tbl = Some cols → c ∈ cols →
         c_fk c = Some fk → fk_table fk ≠ tableName).
Proof.
  assert (∀ r, r ∈ findIncomingReferences objects tableName
            ↔ ∃ tbl cols c fk,
                tbl ∈ tables objects ∧ o_columns tbl = Some cols ∧ c ∈ cols
                ∧ c_fk c = Some fk ∧ fk_table fk = tableName
                ∧ r = (o_name tbl, c_name c)) as Helem.
  { intros r. rewrite findIncomingReferences_bind, list_elem_of_bind. split.
    - intros (tbl & Hr & Htbl). apply list_elem_of_bind in Hr as (c & Hr & Hc).
      apply incoming_column_elem in Hr as (fk & Hfk & Hnm & ->).
      destruct (o_columns tbl) as [cols|] eqn:Hcols; [|by apply elem_of_nil in Hc].
      by exists tbl, cols, c, fk.
    - intros (tbl & cols & c & fk & Htbl & Hcols & Hc & Hfk & Hnm & ->).
      exists tbl. split; [|done]. apply list_elem_of_bind. exists c.
      rewrite Hcols. split; [|done]. apply incoming_column_elem. by exists fk. }
  split; [exact Helem|]. split.
  - intros Hnil tbl cols c fk Htbl Hcols Hc Hfk Hnm.
    assert ((o_name tbl, c_name c) ∈ findIncomingReferences objects tableName)
      as Hin by (apply Helem; by exists tbl, cols, c, fk).
    rewrite Hnil in Hin. by apply elem_of_nil in Hin.
  - intros Hnone.
    assert (∀ l : list (string * string), (∀ r, r ∉ l) → l = []) as Hempty.
    { intros [|r rs] Hno; [done|]. exfalso. apply (Hno r). by left. }
    apply Hempty. intros r Hin.
    apply Helem in Hin as (tbl & cols & c & fk & Htbl & Hcols & Hc & Hfk & Hnm & _).
    by destruct (Hnone tbl cols c fk).
Qed.

(** X20.  The neighbours of a key are the key itself and the keys joined to
    it by one edge, in either direction, and nothing farther; in the
    program's own graph every neighbour other than the key itself is the key
    of a table. *)
Theorem getNeighborKeys_one_hop objects es a b :
  (b ∈ getNeighborKeys es a
   ↔ b = a ∨ ∃ e, e ∈ es ∧ ((e_from e = a ∧ e_to e = b)
                            ∨ (e_to e = a ∧ e_from e = b)))
  ∧ (b ∈ getNeighborKeys (edges objects) a → b ≠ a →
     ∃ t, t ∈ tables objects ∧ o_key t = b).
Proof.
  split; [apply getNeighborKeys_elem|].
  intros Hin Hne. apply getNeighborKeys_elem in Hin as [?|(e & He & Hend)]; [done|].
  destruct (edges_endpoints objects e He) as [(t1 & Ht1 & Hk1) (t2 & Ht2 & Hk2)].
  destruct Hend as [[_ <-]|[_ <-]]; eauto.
Qed.

(** ** Inspector *)

Lemma handle_keys objects w ev :
  event_from_page objects ev →
  key_known objects (st_selected (w_state w)) →
  key_known objects (st_hovered (w_state w)) →
  key_known objects (st_selected (w_state (handle objects w ev)))
  ∧ key_known objects (st_hovered (w_state (handle objects w ev))).
Proof.
  intros Hev Hsel Hhov. destruct ev; simpl in *; try done.
  unfold onKeydown, setView. by repeat case_bool_decide.
Qed.

Lemma run_keys objects evs :
  Forall (event_from_page objects) evs →
  key_known objects (st_selected (w_state (run objects evs)))
  ∧ key_known objects (st_hovered (w_state (run objects evs))).
Proof.
  unfold run.
  assert (key_known objects (st_selected (w_state (init_world objects)))
          ∧ key_known objects (st_hovered (w_state (init_world objects))))
    as Hinit by done.
  revert Hinit. generalize (init_world objects).
  induction evs as [|ev evs IH]; intros w [Hsel Hhov] Hevs; [done|].
  apply Forall_cons in Hevs as [Hev Hevs]. simpl.
  apply IH; [|done]. by apply handle_keys.
Qed.

(** X21.  In a session whose clicks and pointer moves come from the page's
    own elements, the inspector never shows "Object not found.": it shows the
    placeholder exactly when there is no active key, and otherwise an object
    of the dataset whose key is the active key. *)
Theorem run_inspector objects evs :
  Forall (event_from_page objects) evs →
  match renderInspector objects (w_state (run objects evs)) with
  | SelectAnObject => truthy_key (activeKey (w_state (run objects evs))) = false
  | ObjectNotFound => False
  | Showing obj =>
      obj ∈ objects ∧ activeKey (w_state (run objects evs)) = Some (o_key obj)
      ∧ o_key obj ≠ ""
  end.
Proof.
  intros Hevs. destruct (run_keys objects evs Hevs) as [Hsel Hhov].
  unfold renderInspector.
  destruct (truthy_key (activeKey (w_state (run objects evs)))) eqn:Htr; [|done].
  simpl. apply truthy_key_Some in Htr as (k & Hk & Hne). rewrite Hk.
  assert (k ∈ map o_key objects) as Hknown.
  { unfold activeKey in Hk.
    destruct (truthy_key (st_selected (w_state (run objects evs)))).
    - by rewrite Hk in Hsel.
    - by rewrite Hk in Hhov. }
  destruct (byKey_spec objects k) as [Hsome Hnone].
  destruct (byKey objects !! k) as [obj|] eqn:Hget.
  - destruct (proj1 (Hsome obj) eq_refl) as (before & after & -> & Hko & _).
    split; [|by rewrite Hko]. apply elem_of_app. right. by left.
  - apply list_elem_of_In, in_map_iff in Hknown as (o & Hko & Ho).
    apply (proj1 Hnone eq_refl o); [by apply list_elem_of_In|done].
Qed.

Lemma run_inspector_witness :
  match renderInspector sample_objects
          (w_state (run sample_objects
                      [MouseEnter "table_users"; ClickObject "enum_status"])) with
  | SelectAnObject =>
      truthy_key (activeKey (w_state (run sample_objects
                    [MouseEnter "table_users"; ClickObject "enum_status"]))) = false
  | ObjectNotFound => False
  | Showing obj =>
      obj ∈ sample_objects
      ∧ activeKey (w_state (run sample_objects
                      [MouseEnter "table_users"; ClickObject "enum_status"]))
        = Some (o_key obj)
      ∧ o_key obj ≠ ""
  end.
Proof.
  apply (run_inspector sample_objects
           [MouseEnter "table_users"; ClickObject "enum_status"]).
  repeat constructor; by apply (bool_decide_unpack _).
Defined.

(** ** Sidebar list *)

Lemma sidebar_group_push filtered st rows g :
  sidebar_group filtered st rows g = rows ++ sidebar_group filtered st [] g.
Proof.
  unfold sidebar_group. case_bool_decide; [by rewrite app_nil_r|done].
Qed.

Lemma sidebar_group_keys filtered st g :
  item_keys (sidebar_group filtered st [] g)
  = map o_key (filter (λ o, o_type o = fst g) filtered)
  ∧ header_counts (sidebar_group filtered st [] g)
    = if bool_decide (length (filter (λ o, o_type o = fst g) filtered) = 0)
      then [] else [length (filter (λ o, o_type o = fst g) filtered)].
Proof.
  unfold sidebar_group.
  assert (∀ l : list SchemaObject,
            item_keys (map (λ o, ListItem (o_name o) (o_key o)
                                   (bool_decide (st_selected st = Some (o_key o)))) l)
            = map o_key l
            ∧ header_counts
                (map (λ o, ListItem (o_name o) (o_key o)
                             (bool_decide (st_selected st = Some (o_key o)))) l)
              = []) as Hitems.
  { induction l as [|o l [IHk IHc]]; [done|]. split; simpl.
    - f_equal. apply IHk.
    - apply IHc. }
  case_bool_decide as Hlen.
  - split; [|done]. by rewrite (nil_length_inv _ Hlen).
  - destruct (Hitems (filter (λ o, o_type o = fst g) filtered)) as [Hk Hc].
    split; simpl.
    + apply Hk.
    + f_equal. apply Hc.
Qed.

Lemma filter_split_types (g : string) (gs : list string) (l : list SchemaObject) :
  g ∉ gs →
  filter (λ o, o_type o = g) l ++ filter (λ o, o_type o ∈ gs) l
  ≡ₚ filter (λ o, o_type o ∈ g :: gs) l.
Proof.
  intros Hfresh. induction l as [|o l IH]; [done|].
  rewrite !filter_cons.
  destruct (decide (o_type o = g)) as [Hg|Hg].
  - rewrite decide_False by (by rewrite Hg).
    rewrite decide_True by (rewrite Hg; by left). simpl. by rewrite IH.
  - destruct (decide (o_type o ∈ gs)) as [Hin|Hin].
    + rewrite decide_True by (by right).
      rewrite <- Permutation_middle. by rewrite IH.
    + rewrite decide_False; [done|].
      intros [?|?]%elem_of_cons; done.
Qed.

Lemma filter_single_type (g : string) (l : list SchemaObject) :
  filter (λ o, o_type o = g) l = filter (λ o, o_type o ∈ [g]) l.
Proof.
  induction l as [|o l IH]; [done|]. rewrite !filter_cons.
  destruct (decide (o_type o = g)) as [Hg|Hg],
           (decide (o_type o ∈ [g])) as [Hin|Hin].
  - by rewrite IH.
  - exfalso. apply Hin. rewrite Hg. by left.
  - by apply list_elem_of_singleton in Hin.
  - done.
Qed.

(** X22.  The sidebar lists every object that the filters leave and whose
    type is one of the five kinds exactly once, grouped by kind in the fixed
    order tables, enums, views, functions, triggers and in dataset order
    within a kind; an object of any other type is never listed.  No header
    announces an empty group, and the counts in the headers add up to the
    number of items. *)
Theorem sidebar_rows_items filtered st :
  item_keys (sidebar_rows filtered st)
  = map o_key (map fst sidebar_groups ≫= λ g, filter (λ o, o_type o = g) filtered)
  ∧ item_keys (sidebar_rows filtered st)
    ≡ₚ map o_key (filter (λ o, o_type o ∈ map fst sidebar_groups) filtered)
  ∧ Forall (λ n, 0 < n) (header_counts (sidebar_rows filtered st))
  ∧ sum_list (header_counts (sidebar_rows filtered st))
    = length (item_keys (sidebar_rows filtered st)).
Proof.
  unfold sidebar_rows.
  rewrite (foldl_push (sidebar_group filtered st))
    by apply sidebar_group_push.
  rewrite app_nil_l.
  assert (∀ gs : list (string * string),
            item_keys (gs ≫= sidebar_group filtered st [])
            = map o_key (map fst gs ≫= λ g, filter (λ o, o_type o = g) filtered)
            ∧ Forall (λ n, 0 < n)
                (header_counts (gs ≫= sidebar_group filtered st []))
            ∧ sum_list (header_counts (gs ≫= sidebar_group filtered st []))
              = length (item_keys (gs ≫= sidebar_group filtered st [])))
    as Hgroups.
  { induction gs as [|g gs (IHk & IHpos & IHsum)]; [by repeat split|].
    destruct (sidebar_group_keys filtered st g) as [Hk Hc].
    unfold item_keys, header_counts in *.
    rewrite !bind_cons, !omap_app, Hk, Hc.
    change (map fst (g :: gs)) with (fst g :: map fst gs).
    rewrite bind_cons, map_app.
    split; [by rewrite IHk|]. split.
    - apply Forall_app. split; [|done]. case_bool_decide; [done|].
      apply Forall_singleton. lia.
    - rewrite sum_list_with_app, IHsum, !length_app, IHk.
      rewrite !length_map. case_bool_decide as Hlen; simpl; lia. }
  destruct (Hgroups sidebar_groups) as (Hk & Hpos & Hsum).
  split; [done|]. split; [|done]. rewrite Hk.
  change (map o_key ?l) with (o_key <$> l). apply fmap_Permutation.
  change (map fst sidebar_groups)
    with ["table"; "enum"; "view"; "function"; "trigger"].
  rewrite !bind_cons. change ([] ≫= _) with (@nil SchemaObject). rewrite app_nil_r.
  rewrite <- (filter_split_types "table") by (by apply (bool_decide_unpack _)).
  rewrite <- (filter_split_types "enum") by (by apply (bool_decide_unpack _)).
  rewrite <- (filter_split_types "view") by (by apply (bool_decide_unpack _)).
  rewrite <- (filter_split_types "function") by (by apply (bool_decide_unpack _)).
  do 4 f_equiv. by rewrite filter_single_type.
Qed.

(** ** Column-name stems *)

Lemma append_length_inj (s1 : string) : ∀ s2 t1 t2,
  s1 +:+ t1 = s2 +:+ t2 → String.length t1 = String.length t2 →
  s1 = s2 ∧ t1 = t2.
Proof.
  induction s1 as [|a s1 IH]; intros [|b s2] t1 t2 Heq Hlen; simpl in *.
  - done.
  - subst t1. simpl in Hlen. rewrite length_append_str in Hlen. lia.
  - subst t2. simpl in Hlen. rewrite length_append_str in Hlen. lia.
  - injection Heq as -> Heq. destruct (IH s2 t1 t2 Heq Hlen) as [-> ->]. done.
Qed.

(** [strip_suffix] drops the suffix of a string that ends with it. *)
Lemma strip_suffix_ends suffix stem :
  strip_suffix suffix (stem +:+ suffix) = stem.
Proof.
  induction stem as [|a stem IH].
  - change ("" +:+ suffix) with suffix.
    destruct suffix; [done|]. cbn [strip_suffix]. by rewrite String.eqb_refl.
  - change (String a stem +:+ suffix) with (String a (stem +:+ suffix)).
    cbn [strip_suffix].
    destruct (String.eqb (String a (stem +:+ suffix)) suffix) eqn:Heq.
    + apply String.eqb_eq in Heq.
      assert (String.length (String a (stem +:+ suffix)) = String.length suffix)
        as Hlen by (by rewrite Heq).
      simpl in Hlen. rewrite length_append_str in Hlen. lia.
    + by rewrite IH.
Qed.

(** [strip_suffix] returns a string that does not end with the suffix as it
    is. *)
Lemma strip_suffix_other suffix s :
  ¬ ends_with suffix s → strip_suffix suffix s = s.
Proof.
  induction s as [|a s IH]; intros Hno; cbn [strip_suffix].
  - by destruct (String.eqb "" suffix).
  - destruct (String.eqb (String a s) suffix) eqn:Heq.
    + apply String.eqb_eq in Heq. exfalso. apply Hno. exists "". by rewrite Heq.
    + rewrite IH; [done|]. intros [stem ->]. apply Hno. by exists (String a stem).
Qed.

Lemma ends_with_strip suffix s :
  ends_with suffix s → strip_suffix suffix s +:+ suffix = s.
Proof. intros [stem ->]. by rewrite strip_suffix_ends. Qed.

Lemma ends_with_distinct stem suffix1 suffix2 :
  String.length suffix1 = String.length suffix2 → suffix1 ≠ suffix2 →
  ¬ ends_with suffix2 (stem +:+ suffix1).
Proof.
  intros Hlen Hne [stem' Heq].
  by destruct (append_length_inj _ _ _ _ Heq Hlen) as [_ ?].
Qed.

(** X23.  The key of the second lookup of [explainFkWhy] is the column
    name with a final [_id] dropped, then a final [_by] dropped, and [_id]
    appended: a name [stem_by] or [stem_by_id] is looked up as [stem_id]; a
    name [stem_id] whose stem does not end with [_by] is looked up as itself,
    so that the second lookup repeats the first; any name that ends with
    neither suffix is looked up with [_id] appended. *)
Theorem heuristic_key_cases stem :
  heuristic_key (stem +:+ "_by") = stem +:+ "_id"
  ∧ heuristic_key (stem +:+ "_by_id") = stem +:+ "_id"
  ∧ (¬ ends_with "_by" stem → heuristic_key (stem +:+ "_id") = stem +:+ "_id")
  ∧ (¬ ends_with "_id" stem → ¬ ends_with "_by" stem →
       heuristic_key stem = stem +:+ "_id").
Proof.
  unfold heuristic_key, baseCol. split; [|split; [|split]].
  - rewrite (strip_suffix_other "_id") by (by apply ends_with_distinct).
    by rewrite strip_suffix_ends.
  - change (stem +:+ "_by_id") with (stem +:+ ("_by" +:+ "_id")).
    rewrite <- append_assoc_str. by rewrite !strip_suffix_ends.
  - intros Hno. rewrite strip_suffix_ends. by rewrite strip_suffix_other.
  - intros Hid Hby. rewrite (strip_suffix_other "_id") by done.
    by rewrite (strip_suffix_other "_by").
Qed.

Lemma heuristic_key_cases_witness :
  heuristic_key "created_by" = "created_id"
  ∧ heuristic_key "approved_by_id" = "approved_id"
  ∧ heuristic_key "client_id" = "client_id"
  ∧ heuristic_key "owner" = "owner_id".
Proof.
  destruct (heuristic_key_cases "created") as (Hby & _).
  destruct (heuristic_key_cases "approved") as (_ & Hbyid & _).
  destruct (heuristic_key_cases "client") as (_ & _ & Hid & _).
  destruct (heuristic_key_cases "owner") as (_ & _ & _ & Hplain).
  split; [exact Hby|]. split; [exact Hbyid|]. split.
  - apply Hid. intros Hends. apply ends_with_strip in Hends. discriminate Hends.
  - apply Hplain; intros Hends; apply ends_with_strip in Hends;
      discriminate Hends.
Defined.

(** ** Round trips *)

(** X24.  At any moment of a session, changing the isolate checkbox and
    changing it back restores the very same page: every node and every line
    gets back its dimming, and nothing else has moved. *)
Theorem run_isolate_round_trip objects evs checked :
  onIsolateChange objects (st_isolateMode (w_state (run objects evs)))
    (onIsolateChange objects checked (run objects evs))
  = run objects evs.
Proof.
  destruct (run_invariant objects evs) as [Hsync _].
  apply in_sync_elements in Hsync as [Hnodes Hlines].
  destruct (run objects evs) as [st [ns ls]].
  cbn [w_state w_dom dom_nodes dom_edges] in *.
  unfold onIsolateChange. cbn [w_state w_dom].
  assert (set_isolateMode (st_isolateMode st) (set_isolateMode checked st) = st)
    as -> by (by destruct st).
  rewrite !applyIsolateMode_map. cbn [dom_nodes dom_edges]. rewrite !map_map.
  f_equal. f_equal.
  - apply map_fixed. eapply Forall_impl; [exact Hnodes|]. intros n Hn. simpl in Hn.
    apply paint_node_fixed in Hn as [_ Hd]. destruct n as [k sel dim].
    simpl in *. by rewrite Hd.
  - apply map_fixed. eapply Forall_impl; [exact Hlines|]. intros l Hl. simpl in Hl.
    apply paint_line_fixed in Hl as (_ & _ & _ & Hd).
    destruct l as [from to hl marker opacity dim]. simpl in *. by rewrite Hd.
Qed.

(** X25.  Clicking an object that is already selected changes nothing: the
    click does not deselect it, and the page after the second click is the
    page after the first. *)
Theorem selectObject_twice objects key w :
  selectObject objects key (selectObject objects key w)
  = selectObject objects key w
  ∧ st_selected (w_state (selectObject objects key w)) = Some key.
Proof.
  split; [|done]. unfold selectObject.
  assert (∀ st d, w_state (refresh objects st d) = st) as Hst by done.
  rewrite Hst.
  assert (set_selected (Some key) (set_selected (Some key) (w_state w))
          = set_selected (Some key) (w_state w)) as -> by done.
  pose proof (refresh_in_sync objects (set_selected (Some key) (w_state w)) (w_dom w))
    as Hsync.
  unfold in_sync in Hsync. rewrite Hst in Hsync.
  unfold refresh in *. cbn [w_dom] in *. by rewrite Hsync.
Qed.
